(** * camera_tester: the MiniDriver state machine and the rotation loop of main

    A shallow embedding of [src/camera_tester.cpp].

    The program is multi-threaded: every started [MiniDriver] owns one worker
    thread executing [MiniDriver::run], and [main] drives all of them through
    [start]/[stop].  The embedding is a small-step interleaving semantics:

    - the worker is a machine over the control points of [run] / [run_unsafe]
      ([Worker]); one step performs the librealsense calls up to the next
      control point, whose outcome is supplied by a [DevEvent];
    - a call of [start] or [stop] is a machine over the control points of
      these two functions ([CallPc]); blocking operations ([thread_.join()],
      the polling loop of [start]) are steps that leave the state unchanged
      until the worker has made them passable;
    - [main] is a machine over its own control points ([MainPc]);
    - a schedule is a list of events, each naming the thread that moves.

    Every step is an executable function, so concrete runs are evaluated. *)

From Stdlib Require Import ZArith SpecFloat Ascii.
From stdpp Require Import base tactics list strings.

(** ** 64-bit signed integers ([int64_t]) *)

Module Int64.
Local Open Scope Z_scope.

Definition min : Z := - 2 ^ 63.
Definition max : Z := 2 ^ 63 - 1.

(** Conversion to [int64_t] (two's complement wrap-around). *)
Definition wrap (z : Z) : Z := (z + 2 ^ 63) mod 2 ^ 64 - 2 ^ 63.
End Int64.

(** ** [std::chrono] durations in [double] seconds, and the FPS quotient

    [Clock::now()] is a tick count; [Duration] is [duration<double>], so the
    conversion divides the tick count, as a [double], by the clock's ticks per
    second.  IEEE arithmetic is the one of [SpecFloat]: binary64 for [double],
    binary32 for [float]. *)

Module Chrono.
Local Open Scope Z_scope.

(** [high_resolution_clock::period::den]: nanosecond ticks, as in libstdc++
    and libc++. *)
Definition period_den : Z := 1000000000.

(** Integer to [double]. *)
Definition double_of_Z (z : Z) : spec_float := binary_normalize 53 1024 z 0 false.

(** [double] to [float] (round to nearest even). *)
Definition float_of_double (x : spec_float) : spec_float :=
  match x with
  | S754_finite s m e => binary_round 24 128 s m e
  | _ => x
  end.

(** [Duration{ticks}.count()]. *)
Definition seconds (ticks : Z) : spec_float :=
  SFdiv 53 1024 (double_of_Z ticks) (double_of_Z period_den).

(** [x > n] for a [double] [x] and an integer literal [n]. *)
Definition gt (x : spec_float) (n : Z) : bool := SFltb (double_of_Z n) x.

(** [float fps = frame_counter / time_since_last_log.count()]. *)
Definition fps (frame_counter : Z) (elapsed : spec_float) : spec_float :=
  float_of_double (SFdiv 53 1024 (double_of_Z frame_counter) elapsed).

(** The [double] 1.0 and the [float] 30.0. *)
Definition one_second : spec_float := S754_finite false 4503599627370496 (-52).
Definition thirty : spec_float := S754_finite false 15728640 (-19).
End Chrono.

(** ** Log output *)

Inductive LogMsg :=
  | MsgStarting                     (* "Starting driver." *)
  | MsgStarted                      (* "Started driver." *)
  | MsgReset                        (* the three lines of a hardware reset *)
  | MsgInfo                         (* the seven device-info lines *)
  | MsgError                        (* "librealsense error: ..." *)
  | MsgFPS (fps : spec_float) (frame_counter : Z) (elapsed : spec_float)
  | MsgFrameReset (last new : Z).   (* "Frame number reset: last -> new" *)

Definition is_frame_reset (m : LogMsg) : bool :=
  match m with MsgFrameReset _ _ => true | _ => false end.

(** ** What the device layer does at the worker's next step *)

Record DevEvent := {
  throws : bool;        (* a librealsense call of this step throws *)
  clock : Z;            (* the value of Clock::now() read in this step *)
  depth : option Z;     (* frame number of the depth frame, if there is one *)
  present : bool        (* reset(): a device with this serial is enumerated *)
}.

(** ** The capture loop of [run_unsafe] (lines 153-193) *)

Record LoopVars := {
  tp_last_logged : Z;
  last_frame_number : Z;
  frame_counter : Z
}.

(** Lines 153-156. *)
Definition loop_entry (now : Z) : LoopVars :=
  {| tp_last_logged := now; last_frame_number := 0; frame_counter := 0 |}.

(** Lines 162-175: the throttled FPS log. *)
Definition elapsed_since_log (v : LoopVars) (now : Z) : spec_float :=
  Chrono.seconds (Int64.wrap (now - tp_last_logged v)).

Definition throttle (v : LoopVars) (now : Z) : LoopVars * list LogMsg :=
  let time_since_last_log := elapsed_since_log v now in
  if Chrono.gt time_since_last_log 1 then
    ({| tp_last_logged := now;
        last_frame_number := last_frame_number v;
        frame_counter := 0 |},
     [MsgFPS (Chrono.fps (frame_counter v) time_since_last_log)
             (frame_counter v) time_since_last_log])
  else (v, []).

(** Lines 177-192: the depth frame and its frame number.  [get_frame_number]
    returns an [unsigned long long], which is converted to [int64_t]. *)
Definition observe (v : LoopVars) (fd : option Z) : LoopVars * list LogMsg :=
  match fd with
  | None => (v, [])
  | Some n =>
      let new_frame_number := Int64.wrap n in
      let '(counter, logs) :=
        if (last_frame_number v <? new_frame_number)%Z then
          (Int64.wrap (frame_counter v + 1), [])
        else if (new_frame_number <? last_frame_number v)%Z then
          (frame_counter v, [MsgFrameReset (last_frame_number v) new_frame_number])
        else (frame_counter v, []) in
      ({| tp_last_logged := tp_last_logged v;
          last_frame_number := new_frame_number;
          frame_counter := counter |}, logs)
  end.

(** One iteration of the loop body after [wait_for_frames] returned. *)
Definition loop_body (v : LoopVars) (e : DevEvent) : LoopVars * list LogMsg :=
  let '(v1, l1) := throttle v (clock e) in
  let '(v2, l2) := observe v1 (depth e) in
  (v2, l1 ++ l2).

(** Several iterations in a row. *)
Fixpoint loop_run (v : LoopVars) (es : list DevEvent) : LoopVars * list LogMsg :=
  match es with
  | [] => (v, [])
  | e :: es' =>
      let '(v1, l1) := loop_body v e in
      let '(v2, l2) := loop_run v1 es' in
      (v2, l1 ++ l2)
  end.

(** ** [class MiniDriver] *)

Inductive State := STATE_OFF | STATE_STARTING | STATE_RUNNING | STATE_ERROR.

#[global] Instance State_eq_dec : EqDecision State.
Proof. solve_decision. Defined.

(** Control points of the worker thread, which executes [run]. *)
Inductive Worker :=
  | AtReset                (* line 107: about to call reset() *)
  | AtOpen                 (* line 108: about to call run_unsafe() *)
  | AtLoop (v : LoopVars)  (* line 158: at the test of the while loop *)
  | Exited.                (* run() has returned; the thread is still joinable *)

(** [thread_] is [None] when the [std::thread] is not joinable. *)
Record Driver := {
  serial_ : string;
  thread_ : option Worker;
  interrupt_requested_ : bool;
  state_ : State
}.

(** The constructor (line 54). *)
Definition MiniDriver (serial : string) : Driver :=
  {| serial_ := serial; thread_ := None;
     interrupt_requested_ := false; state_ := STATE_OFF |}.

Definition set_thread (w : option Worker) (d : Driver) : Driver :=
  {| serial_ := serial_ d; thread_ := w;
     interrupt_requested_ := interrupt_requested_ d; state_ := state_ d |}.

Definition set_interrupt (b : bool) (d : Driver) : Driver :=
  {| serial_ := serial_ d; thread_ := thread_ d;
     interrupt_requested_ := b; state_ := state_ d |}.

Definition set_state (s : State) (d : Driver) : Driver :=
  {| serial_ := serial_ d; thread_ := thread_ d;
     interrupt_requested_ := interrupt_requested_ d; state_ := s |}.


Definition joinable (d : Driver) : bool :=
  match thread_ d with Some _ => true | None => false end.

(** The worker is executing [run] (it has been spawned and has not returned). *)
Definition live (d : Driver) : bool :=
  match thread_ d with
  | Some AtReset | Some AtOpen | Some (AtLoop _) => true
  | Some Exited | None => false
  end.

(** *** The worker: [run], [reset], [run_unsafe] *)

(** The two [catch] clauses of [run] (lines 110-120). *)
Definition caught (d : Driver) : Driver * list LogMsg :=
  (set_thread (Some Exited) (set_state STATE_ERROR d), [MsgError]).

(** One step of the worker thread.
    - [AtReset]: [reset()], lines 85-101;
    - [AtOpen]: lines 125-156 of [run_unsafe], up to the loop;
    - [AtLoop]: the loop test of line 158, then either one iteration
      (lines 160-192) or the exit (lines 195-196). *)
Definition run_step (d : Driver) (e : DevEvent) : Driver * list LogMsg :=
  match thread_ d with
  | None | Some Exited => (d, [])
  | Some AtReset =>
      if throws e then caught d
      else (set_thread (Some AtOpen) d, if present e then [MsgReset] else [])
  | Some AtOpen =>
      if throws e then caught d
      else (set_thread (Some (AtLoop (loop_entry (clock e)))) (set_state STATE_RUNNING d),
            [MsgInfo])
  | Some (AtLoop v) =>
      if interrupt_requested_ d then
        if throws e then caught d
        else (set_thread (Some Exited) (set_state STATE_OFF d), [])
      else if throws e then caught d
      else let '(v', logs) := loop_body v e in
           (set_thread (Some (AtLoop v')) d, logs)
  end.

(** *** The owner: [start] and [stop] *)

(** Control points inside [stop] (the first three) and [start]. *)
Inductive CallPc :=
  | CStop          (* line 77: if (thread_.joinable()) *)
  | CJoin          (* line 80: interrupt set, blocked in thread_.join() *)
  | CClear         (* line 81: join returned *)
  | CSetStarting   (* lines 62-63: stop() has returned inside start() *)
  | CSpawn         (* line 64: thread_ = std::thread(...) *)
  | CWait.         (* lines 65-72: the polling loop and the return *)

Inductive Method := Stop | Start (block_until_ready : bool).

Inductive Outcome :=
  | Continue (c : CallPc)
  | Return
  | Terminate.     (* std::terminate: move-assignment to a joinable thread *)

(** Where control goes when the code of [stop] is left. *)
Definition after_stop (m : Method) : Outcome :=
  match m with
  | Stop => Return
  | Start _ => Continue CSetStarting
  end.

(** One step of the thread that called [m], at control point [c]. *)
Definition call_step (m : Method) (c : CallPc) (d : Driver)
  : Driver * Outcome * list LogMsg :=
  match c with
  | CStop =>
      if joinable d then (set_interrupt true d, Continue CJoin, [])
      else (d, after_stop m, [])
  | CJoin =>
      match thread_ d with
      | Some Exited => (set_thread None d, Continue CClear, [])
      | _ => (d, Continue CJoin, [])
      end
  | CClear => (set_interrupt false d, after_stop m, [])
  | CSetStarting => (set_state STATE_STARTING d, Continue CSpawn, [MsgStarting])
  | CSpawn =>
      if joinable d then (d, Terminate, [])
      else (set_thread (Some AtReset) d, Continue CWait, [])
  | CWait =>
      match m with
      | Start true =>
          if decide (state_ d = STATE_STARTING) then (d, Continue CWait, [])
          else (d, Return, [MsgStarted])
      | _ => (d, Return, [MsgStarted])
      end
  end.

(** *** One driver, its worker and its owner *)

Inductive Caller :=
  | Idle                                 (* not inside start() or stop() *)
  | InCall (m : Method) (c : CallPc)
  | Aborted.                             (* the process was terminated *)

(** [spawned] counts the worker threads created so far (line 64 makes
    [thread_] joinable), [finished] those whose [run] has returned. *)
Record DSys := {
  drv : Driver;
  caller : Caller;
  spawned : nat;
  finished : nat;
  out : list LogMsg
}.

Inductive DEvent :=
  | Invoke (m : Method)         (* the owner calls start() or stop() *)
  | CallerStep                  (* the owner's thread moves *)
  | WorkerStep (e : DevEvent).  (* the worker thread moves *)

Definition dinit (serial : string) : DSys :=
  {| drv := MiniDriver serial; caller := Idle;
     spawned := 0; finished := 0; out := [] |}.

Definition dstep (s : DSys) (ev : DEvent) : DSys :=
  match caller s, ev with
  | Aborted, _ => s
  | Idle, Invoke m =>
      {| drv := drv s; caller := InCall m CStop;
         spawned := spawned s; finished := finished s; out := out s |}
  | InCall m c, CallerStep =>
      let '(d', o, logs) := call_step m c (drv s) in
      {| drv := d';
         caller := match o with
                   | Continue c' => InCall m c'
                   | Return => Idle
                   | Terminate => Aborted
                   end;
         spawned := if joinable d' && negb (joinable (drv s))
                    then S (spawned s) else spawned s;
         finished := finished s;
         out := out s ++ logs |}
  | _, WorkerStep e =>
      let '(d', logs) := run_step (drv s) e in
      {| drv := d'; caller := caller s;
         spawned := spawned s;
         finished := if live (drv s) && negb (live d')
                     then S (finished s) else finished s;
         out := out s ++ logs |}
  | _, _ => s
  end.

Definition drun (s : DSys) (evs : list DEvent) : DSys := foldl dstep s evs.

(** The live workers of a driver: threads created whose [run] has not
    returned. *)
Definition live_workers (s : DSys) : nat := spawned s - finished s.

Definition is_turn (ev : DEvent) : bool :=
  match ev with Invoke _ => false | _ => true end.

Definition is_caller_step (ev : DEvent) : bool :=
  match ev with CallerStep => true | _ => false end.

(** ** [main]: the fleet and its rotation loop *)

Inductive Crash :=
  | OutOfRange (i : nat)   (* drivers[i] with i >= drivers.size() *)
  | Terminated.            (* std::terminate *)

(** Control points of [main].  [br] is the branch of [if (toggle)] that is
    being executed. *)
Inductive MainPc :=
  | InitStart (i : nat) (c : CallPc)              (* line 225 *)
  | LoopTop                                       (* line 230 *)
  | RotStop (br : bool) (i : nat) (c : CallPc)    (* lines 238 and 249 *)
  | RotStart (br : bool) (i : nat) (c : CallPc)   (* lines 242 and 253 *)
  | Crashed (why : Crash).

Record Fleet := {
  drivers : list Driver;
  toggle : bool;
  started : Z;
  now_ : Z;                            (* the local [now] of the loop body *)
  pc : MainPc;
  console : list (string * LogMsg)     (* std::cout *)
}.

Inductive Event :=
  | EvMain (t : Z)                     (* main moves; [t] is Clock::now() *)
  | EvWorker (i : nat) (e : DevEvent). (* the worker of drivers[i] moves *)

(** Lines 208-221: one driver per enumerated device; [t0] is the clock value
    read at line 221. *)
Definition main_init (serials : list string) (t0 : Z) : Fleet :=
  {| drivers := MiniDriver <$> serials; toggle := true; started := t0;
     now_ := t0; pc := InitStart 0 CStop; console := [] |}.

Definition set_pc (p : MainPc) (fl : Fleet) : Fleet :=
  {| drivers := drivers fl; toggle := toggle fl; started := started fl;
     now_ := now_ fl; pc := p; console := console fl |}.

Definition tag (d : Driver) (logs : list LogMsg) : list (string * LogMsg) :=
  pair (serial_ d) <$> logs.

(** [drivers[i]] becomes [d'], and the lines it logged are printed. *)
Definition with_driver (fl : Fleet) (i : nat) (d d' : Driver)
    (logs : list LogMsg) : Fleet :=
  {| drivers := <[i:=d']> (drivers fl); toggle := toggle fl;
     started := started fl; now_ := now_ fl; pc := pc fl;
     console := console fl ++ tag d logs |}.

(** [main] executes one step of [drivers[i]->m()] at control point [c]. *)
Definition call_on (fl : Fleet) (i : nat) (m : Method) (c : CallPc)
    (again : CallPc → MainPc) (done : Fleet → Fleet) : Fleet :=
  match drivers fl !! i with
  | None => set_pc (Crashed (OutOfRange i)) fl
  | Some d =>
      let '(d', o, logs) := call_step m c d in
      let fl' := with_driver fl i d d' logs in
      match o with
      | Continue c' => set_pc (again c') fl'
      | Return => done fl'
      | Terminate => set_pc (Crashed Terminated) fl'
      end
  end.

(** The index ranges of the four [for] loops of the rotation. *)
Definition stop_lo (br : bool) : nat := if br then 0 else 4.
Definition stop_hi (br : bool) : nat := if br then 4 else 8.
Definition start_lo (br : bool) : nat := if br then 4 else 0.
Definition start_hi (br : bool) : nat := if br then 8 else 4.

(** Lines 257-258.  Line 257 is the expression statement [toggle != toggle]:
    it compares [toggle] with itself and discards the result. *)
Definition end_rotation (fl : Fleet) : Fleet :=
  let _discarded := xorb (toggle fl) (toggle fl) in
  {| drivers := drivers fl; toggle := toggle fl; started := now_ fl;
     now_ := now_ fl; pc := LoopTop; console := console fl |}.

(** Line 232. *)
Definition rotation_due (started now : Z) : bool :=
  Chrono.gt (Chrono.seconds (Int64.wrap (now - started))) 3600.

Definition main_step (fl : Fleet) (t : Z) : Fleet :=
  match pc fl with
  | InitStart i c =>
      call_on fl i (Start true) c (InitStart i)
        (set_pc (if decide (i + 1 < 4) then InitStart (i + 1) CStop else LoopTop))
  | LoopTop =>
      let fl1 := {| drivers := drivers fl; toggle := toggle fl;
                    started := started fl; now_ := t; pc := LoopTop;
                    console := console fl |} in
      if rotation_due (started fl) t
      then set_pc (RotStop (toggle fl) (stop_lo (toggle fl)) CStop) fl1
      else fl1
  | RotStop br i c =>
      call_on fl i Stop c (RotStop br i)
        (set_pc (if decide (i + 1 < stop_hi br) then RotStop br (i + 1) CStop
                 else RotStart br (start_lo br) CStop))
  | RotStart br i c =>
      call_on fl i (Start true) c (RotStart br i)
        (λ fl', if decide (i + 1 < start_hi br)
                then set_pc (RotStart br (i + 1) CStop) fl'
                else end_rotation fl')
  | Crashed _ => fl
  end.

(** The worker of [drivers[i]] moves. *)
Definition worker_on (fl : Fleet) (i : nat) (e : DevEvent) : Fleet :=
  match pc fl, drivers fl !! i with
  | Crashed _, _ | _, None => fl
  | _, Some d =>
      let '(d', logs) := run_step d e in
      with_driver fl i d d' logs
  end.

Definition step (fl : Fleet) (ev : Event) : Fleet :=
  match ev with
  | EvMain t => main_step fl t
  | EvWorker i e => worker_on fl i e
  end.

Definition run (fl : Fleet) (evs : list Event) : Fleet := foldl step fl evs.

(** The states of the drivers with indices [lo], ..., [hi - 1]. *)
Definition group_states (fl : Fleet) (lo hi : nat) : list State :=
  state_ <$> take (hi - lo) (drop lo (drivers fl)).

(** A driver at rest: it has no worker thread and no pending interrupt, and
    it is OFF or ERROR. *)
Definition at_rest (d : Driver) : Prop :=
  thread_ d = None ∧ interrupt_requested_ d = false ∧
  (state_ d = STATE_OFF ∨ state_ d = STATE_ERROR).

(** The drivers with indices [lo], ..., [hi - 1] are at rest. *)
Definition rest_in (ds : list Driver) (lo hi : nat) : Prop :=
  ∀ i d, lo ≤ i < hi → ds !! i = Some d → at_rest d.

Definition group_at_rest (fl : Fleet) (lo hi : nat) : Prop :=
  rest_in (drivers fl) lo hi.

(** A driver that is RUNNING or STARTING. *)
Definition active (d : Driver) : Prop :=
  state_ d = STATE_RUNNING ∨ state_ d = STATE_STARTING.

Definition crashed_out_of_range (fl : Fleet) : Prop :=
  ∃ i, pc fl = Crashed (OutOfRange i).

(** ** Invariants *)

Definition settled (d : Driver) : bool :=
  match state_ d with
  | STATE_OFF | STATE_ERROR => true
  | _ => false
  end.

(** The state a driver can be in, given where its owner is: [None] when the
    owner is outside [start]/[stop], [Some (m, c)] when it is inside [m] at
    control point [c]. *)
Definition driver_ok (ctx : option (Method * CallPc)) (d : Driver) : bool :=
  match ctx with
  | Some (Stop, (CSetStarting | CSpawn | CWait)) => false
  | None | Some (_, CStop) =>
      negb (interrupt_requested_ d) &&
      match thread_ d, state_ d with
      | None, (STATE_OFF | STATE_ERROR)
      | Some (AtReset | AtOpen), STATE_STARTING
      | Some (AtLoop _), STATE_RUNNING
      | Some Exited, STATE_ERROR => true
      | _, _ => false
      end
  | Some (_, CJoin) =>
      interrupt_requested_ d &&
      match thread_ d, state_ d with
      | Some (AtReset | AtOpen), STATE_STARTING
      | Some (AtLoop _), STATE_RUNNING
      | Some Exited, (STATE_OFF | STATE_ERROR) => true
      | _, _ => false
      end
  | Some (_, CClear) =>
      interrupt_requested_ d && negb (joinable d) && settled d
  | Some (_, CSetStarting) =>
      negb (interrupt_requested_ d) && negb (joinable d) && settled d
  | Some (_, CSpawn) =>
      negb (interrupt_requested_ d) && negb (joinable d) &&
      bool_decide (state_ d = STATE_STARTING)
  | Some (_, CWait) =>
      negb (interrupt_requested_ d) &&
      match thread_ d, state_ d with
      | Some (AtReset | AtOpen), STATE_STARTING
      | Some (AtLoop _), STATE_RUNNING
      | Some Exited, STATE_ERROR => true
      | _, _ => false
      end
  end.

Definition caller_ctx (c : Caller) : option (option (Method * CallPc)) :=
  match c with
  | Idle => Some None
  | InCall m c => Some (Some (m, c))
  | Aborted => None
  end.

Definition dsys_ok (s : DSys) : Prop :=
  (∃ ctx, caller_ctx (caller s) = Some ctx ∧ driver_ok ctx (drv s) = true) ∧
  spawned s = finished s + (if live (drv s) then 1 else 0).

(** Where [main] is inside a call on [drivers[i]]. *)
Definition ctx_of (p : MainPc) (i : nat) : option (Method * CallPc) :=
  match p with
  | InitStart j c | RotStart _ j c =>
      if decide (i = j) then Some (Start true, c) else None
  | RotStop _ j c => if decide (i = j) then Some (Stop, c) else None
  | LoopTop | Crashed _ => None
  end.

Definition drivers_ok (p : MainPc) (ds : list Driver) : Prop :=
  ∀ i d, ds !! i = Some d → driver_ok (ctx_of p i) d = true.

(** What [main]'s control point says about the two groups. *)
Definition pc_ok (p : MainPc) (ds : list Driver) : Prop :=
  match p with
  | InitStart i c => i < 4 ∧ rest_in ds 4 8
  | LoopTop => rest_in ds 0 4 ∨ rest_in ds 4 8
  | RotStop br i c =>
      br = true ∧ i < 4 ∧
      ((rest_in ds 4 8 ∧ rest_in ds 0 i) ∨ (rest_in ds 0 4 ∧ c = CStop))
  | RotStart br i c => br = true ∧ 4 ≤ i < 8 ∧ rest_in ds 0 4
  | Crashed why =>
      (rest_in ds 0 4 ∨ rest_in ds 4 8) ∧
      ∃ i, why = OutOfRange i ∧ length ds ≤ i < 8
  end.

Definition fleet_ok (fl : Fleet) : Prop :=
  toggle fl = true ∧
  drivers_ok (pc fl) (drivers fl) ∧
  pc_ok (pc fl) (drivers fl).

(** ** Fair schedules for a call of [stop]

    A schedule gives a thread enough turns when it contains, in this order
    and interleaved with anything else, the turns of [turns_from]. *)

Inductive Turn := TCaller | TWorker.

#[global] Instance Turn_eq_dec : EqDecision Turn.
Proof. solve_decision. Defined.

Definition turn_of (ev : DEvent) : option Turn :=
  match ev with
  | Invoke _ => None
  | CallerStep => Some TCaller
  | WorkerStep _ => Some TWorker
  end.

Fixpoint has_turns (pat : list Turn) (evs : list DEvent) : bool :=
  match pat, evs with
  | [], _ => true
  | _ :: _, [] => false
  | t :: pat', ev :: evs' =>
      if decide (turn_of ev = Some t) then has_turns pat' evs'
      else has_turns pat evs'
  end.

(** How far a call of [stop] is from its return, and whose turn brings it
    closer: the owner sets the interrupt (6), the worker needs at most three
    steps to see it and leave [run] (5, 4, 3), the owner returns from [join]
    (2) and clears the flag (1). *)
Definition stop_rank (s : DSys) : nat :=
  match caller s with
  | InCall Stop CStop => if joinable (drv s) then 6 else 1
  | InCall Stop CJoin =>
      match thread_ (drv s) with
      | Some AtReset => 5
      | Some AtOpen => 4
      | Some (AtLoop _) => 3
      | Some Exited => 2
      | None => 0
      end
  | InCall Stop CClear => 1
  | _ => 0
  end.

Definition turn_at (r : nat) : Turn :=
  match r with
  | 3 | 4 | 5 => TWorker
  | _ => TCaller
  end.

Fixpoint turns_from (r : nat) : list Turn :=
  match r with
  | 0 => []
  | S r' => turn_at r :: turns_from r'
  end.

(** The owner is inside [stop], or outside any call with no thread left. *)
Definition stop_frame (s : DSys) : Prop :=
  (∃ ctx, caller_ctx (caller s) = Some ctx ∧ driver_ok ctx (drv s) = true) ∧
  match caller s with
  | Idle => thread_ (drv s) = None
  | InCall Stop _ => True
  | _ => False
  end.

(** ** Scenarios for one driver *)

(** The device answers without an error, at clock value [t], with the depth
    frame [fd]. *)
Definition dev_ok (t : Z) (fd : option Z) : DevEvent :=
  {| throws := false; clock := t; depth := fd; present := true |}.

(** The librealsense call of the step throws. *)
Definition dev_fail : DevEvent :=
  {| throws := true; clock := 0; depth := None; present := true |}.

(** [start()] up to the polling loop, the worker not yet scheduled. *)
Definition sched_start_spawned : list DEvent :=
  [Invoke (Start true); CallerStep; CallerStep; CallerStep].

(** [start()] on a healthy device: the worker resets, opens, runs. *)
Definition sched_start_running : list DEvent :=
  sched_start_spawned ++
  [WorkerStep (dev_ok 0 None); WorkerStep (dev_ok 0 None); CallerStep].

(** [start()] on a device whose stream cannot be opened. *)
Definition sched_start_open_fails : list DEvent :=
  sched_start_spawned ++
  [WorkerStep (dev_ok 0 None); WorkerStep dev_fail; CallerStep].

(** [stop()] after the failed start, up to the last step of [stop]. *)
Definition sched_stop_after_error : list DEvent :=
  sched_start_open_fails ++ [Invoke Stop; CallerStep; CallerStep].

(** [start()] on a healthy device, then [stop()]: the worker leaves the loop
    through the interrupt. *)
Definition sched_start_stop : list DEvent :=
  sched_start_running ++
  [Invoke Stop; CallerStep; WorkerStep (dev_ok 1 None); CallerStep; CallerStep].

(** What [stop] is claimed to establish: OFF, no thread, flag cleared. *)
Definition stopped_off (d : Driver) : Prop :=
  state_ d = STATE_OFF ∧ thread_ d = None ∧ interrupt_requested_ d = false.

(** ** Scenarios for the capture loop *)

(** Thirty frames counted, last log at tick 0. *)
Definition thirty_frames : LoopVars :=
  {| tp_last_logged := 0; last_frame_number := 30; frame_counter := 30 |}.

(** Sixty frames counted, last log at tick 0. *)
Definition sixty_frames : LoopVars :=
  {| tp_last_logged := 0; last_frame_number := 60; frame_counter := 60 |}.

(** The depth frames of a list of frame sets, fed to lines 177-192 alone. *)
Fixpoint feed (v : LoopVars) (ns : list Z) : LoopVars * list LogMsg :=
  match ns with
  | [] => (v, [])
  | n :: ns' =>
      let '(v1, l1) := observe v (Some n) in
      let '(v2, l2) := feed v1 ns' in
      (v2, l1 ++ l2)
  end.

(** The strict ascents and the strict descents of a sequence that follows
    [last]. *)
Fixpoint ascents (last : Z) (ns : list Z) : nat :=
  match ns with
  | [] => 0
  | n :: ns' => (if (last <? n)%Z then 1 else 0) + ascents n ns'
  end.

Fixpoint descents (last : Z) (ns : list Z) : nat :=
  match ns with
  | [] => 0
  | n :: ns' => (if (n <? last)%Z then 1 else 0) + descents n ns'
  end.

(** The context of a driver only changes when [main] enters a call on it. *)
Definition ctx_advances (c c' : option (Method * CallPc)) : Prop :=
  c' = c ∨ (c = None ∧ ∃ m, c' = Some (m, CStop)).

(** What C3 claims of the two groups: one of them is all OFF. *)
Definition group_off (fl : Fleet) (lo hi : nat) : Prop :=
  Forall (λ st, st = STATE_OFF) (group_states fl lo hi).

Definition one_group_off (fl : Fleet) : Prop :=
  group_off fl 0 4 ∨ group_off fl 4 8.

(** A rotation has taken place: group 0..3 is at rest and [main] is in its
    loop, outside the calls that stop this group. *)
Definition rotated (fl : Fleet) : Prop :=
  group_at_rest fl 0 4 ∧
  match pc fl with
  | LoopTop | RotStop true _ CStop | RotStart true _ _ | Crashed _ => True
  | _ => False
  end.

(** ** Scenarios for the fleet *)

Definition mains (n : nat) : list Event := replicate n (EvMain 0).

Definition workers (i : nat) (ws : list DevEvent) : list Event :=
  EvWorker i <$> ws.

(** The reset and the opening of the stream succeed. *)
Definition up : list DevEvent := [dev_ok 0 None; dev_ok 0 None].

(** [start()] on a driver without a thread: three steps of [main] to the
    polling loop, the worker's steps [ws], and the return. *)
Definition sched_fresh_start (ws : list DevEvent) (i : nat) : list Event :=
  mains 3 ++ workers i ws ++ mains 1.

(** [stop()] on a running driver: the worker sees the interrupt. *)
Definition sched_stop_running (i : nat) : list Event :=
  mains 1 ++ workers i [dev_ok 0 None] ++ mains 2.

(** [stop()] on a driver whose worker has failed: the join is immediate. *)
Definition sched_stop_failed (i : nat) : list Event := mains 3.

(** [stop()] on a driver without a thread. *)
Definition sched_stop_rested (i : nat) : list Event := mains 1.

(** [start()] on a running driver: the implicit stop, then the new worker. *)
Definition sched_restart_running (i : nat) : list Event :=
  mains 1 ++ workers i [dev_ok 0 None] ++ mains 4 ++ workers i up ++ mains 1.

(** A little more than the 3600 s of line 232, in clock ticks. *)
Definition hour : Z := 3601000000000.

Definition eight_cameras : list string :=
  ["c0"; "c1"; "c2"; "c3"; "c4"; "c5"; "c6"; "c7"].

(** Eight healthy cameras: the initial start of drivers 0..3. *)
Definition sched_boot : list Event :=
  concat (sched_fresh_start up <$> [0; 1; 2; 3]).

(** The first rotation: drivers 0..3 are stopped, 4..7 started. *)
Definition sched_rotation1 : list Event :=
  [EvMain hour] ++ concat (sched_stop_running <$> [0; 1; 2; 3])
  ++ concat (sched_fresh_start up <$> [4; 5; 6; 7]).

(** The events of the second rotation, one hour later. *)
Definition sched_rotation2 : list Event :=
  [EvMain (2 * hour)] ++ concat (sched_stop_rested <$> [0; 1; 2; 3])
  ++ concat (sched_restart_running <$> [4; 5; 6; 7]).

(** The camera of driver 0 fails at its reset; after an hour the rotation
    stops drivers 0..3 and driver 4 is started. *)
Definition sched_failed_then_rotate : list Event :=
  sched_fresh_start [dev_fail] 0
  ++ concat (sched_fresh_start up <$> [1; 2; 3])
  ++ [EvMain hour] ++ sched_stop_failed 0
  ++ concat (sched_stop_running <$> [1; 2; 3])
  ++ mains 3 ++ workers 4 up.

(** Every camera fails at its reset: the initial start, and one rotation
    whose clock reading is [t]. *)
Definition sched_probe_boot : list Event :=
  concat (sched_fresh_start [dev_fail] <$> [0; 1; 2; 3]).

Definition sched_probe_rotation : list Event :=
  concat (sched_stop_failed <$> [0; 1; 2; 3])
  ++ concat (sched_fresh_start [dev_fail] <$> [4; 5; 6; 7]).

Definition sched_probe (t : Z) : list Event :=
  sched_probe_boot ++ [EvMain t] ++ sched_probe_rotation.

(** ** The state machine of a driver *)

(** The edges of the state machine: [start] takes OFF and ERROR to STARTING,
    the worker takes STARTING to RUNNING or ERROR and RUNNING to OFF or
    ERROR. *)
Definition allowed (a b : State) : bool :=
  match a, b with
  | STATE_OFF, STATE_STARTING
  | STATE_ERROR, STATE_STARTING
  | STATE_STARTING, STATE_RUNNING
  | STATE_STARTING, STATE_ERROR
  | STATE_RUNNING, STATE_OFF
  | STATE_RUNNING, STATE_ERROR => true
  | _, _ => bool_decide (a = b)
  end.

(** Events other than a call of [start]. *)
Definition no_start (ev : DEvent) : bool :=
  match ev with Invoke (Start _) => false | _ => true end.

(** A device call of the worker throws in the course of the schedule [evs]
    run from [s]: some worker step meets a throw while the worker is live. *)
Fixpoint fails (s : DSys) (evs : list DEvent) : bool :=
  match evs with
  | [] => false
  | ev :: evs' =>
      match ev with
      | WorkerStep e => live (drv s) && throws e
      | _ => false
      end || fails (dstep s ev) evs'
  end.

(** The state in which [stop] leaves the driver: ERROR when the driver was
    in ERROR or its worker fails while it is being stopped, OFF otherwise. *)
Definition state_after_stop (s : DSys) (evs : list DEvent) : State :=
  if bool_decide (state_ (drv s) = STATE_ERROR) || fails s evs
  then STATE_ERROR else STATE_OFF.

(** Events in which the device layer does not throw. *)
Definition healthy (ev : DEvent) : bool :=
  match ev with WorkerStep e => negb (throws e) | _ => true end.

(** ** Fair schedules for a call of [start] *)

(** The turns of a schedule that brings a call from rank [r] to its return,
    [turn r] being the thread whose step lowers rank [r]. *)
Fixpoint turns_by (turn : nat → Turn) (r : nat) : list Turn :=
  match r with
  | 0 => []
  | S r' => turn r :: turns_by turn r'
  end.

(** How far a call of [start] is from its return: the implicit [stop] (11
    down to 6), the state and the thread (5, 4), the worker's reset and
    opening of the stream when [start] waits for them (3, 2), the return
    (1). *)
Definition start_rank (s : DSys) : nat :=
  match caller s with
  | InCall (Start b) CStop => if joinable (drv s) then 11 else 6
  | InCall (Start b) CJoin =>
      match thread_ (drv s) with
      | Some AtReset => 10
      | Some AtOpen => 9
      | Some (AtLoop _) => 8
      | Some Exited => 7
      | None => 0
      end
  | InCall (Start b) CClear => 6
  | InCall (Start b) CSetStarting => 5
  | InCall (Start b) CSpawn => 4
  | InCall (Start b) CWait =>
      if b then
        match thread_ (drv s) with
        | Some AtReset => 3
        | Some AtOpen => 2
        | _ => 1
        end
      else 1
  | _ => 0
  end.

Definition start_turn (r : nat) : Turn :=
  match r with
  | 2 | 3 | 8 | 9 | 10 => TWorker
  | _ => TCaller
  end.

(** The owner is inside [start(b)], or has returned from it. *)
Definition start_frame (b : bool) (s : DSys) : Prop :=
  (∃ ctx, caller_ctx (caller s) = Some ctx ∧ driver_ok ctx (drv s) = true) ∧
  match caller s with
  | Idle => joinable (drv s) = true ∧
            (b = true → state_ (drv s) ≠ STATE_STARTING)
  | InCall (Start b') _ => b' = b
  | _ => False
  end.

(** What [start(b)] has established when it returns. *)
Definition started_up (b : bool) (d : Driver) : Prop :=
  joinable d = true ∧ interrupt_requested_ d = false ∧
  (b = true → state_ d = STATE_RUNNING ∨ state_ d = STATE_ERROR).

(** [start()] on a running driver, up to its return. *)
Definition sched_restart : list DEvent :=
  sched_start_running ++
  [Invoke (Start true); CallerStep; WorkerStep (dev_ok 1 None); CallerStep;
   CallerStep; CallerStep; CallerStep; WorkerStep (dev_ok 2 None);
   WorkerStep (dev_ok 3 None); CallerStep].

(** ** What a capture run observes and reports *)

(** The depth frame numbers of a list of frame sets, as the loop reads
    them. *)
Definition observed (es : list DevEvent) : list Z :=
  omap (λ e, Int64.wrap <$> depth e) es.

(** The frames reported by the FPS lines of a log. *)
Fixpoint fps_frames (logs : list LogMsg) : Z :=
  match logs with
  | [] => 0
  | MsgFPS _ counter _ :: logs' => counter + fps_frames logs'
  | _ :: logs' => fps_frames logs'
  end.

(** The frame-number-reset lines of a log. *)
Definition reset_lines (logs : list LogMsg) : nat :=
  length (filter (λ m, is_frame_reset m = true) logs).

(** A capture run of five frame sets: numbers 3, 4, none, 2, 2, with an FPS
    line before the last one. *)
Definition five_frame_sets : list DevEvent :=
  [dev_ok 100 (Some 3); dev_ok 200 (Some 4); dev_ok 300 None;
   dev_ok 400 (Some 2); dev_ok 1500000000 (Some 2)]%Z.

(** ** The rotation timer *)

(** While a rotation is under way, [now] is the clock value at which it was
    found due. *)
Definition epoch_ok (fl : Fleet) : Prop :=
  match pc fl with
  | RotStop _ _ _ | RotStart _ _ _ =>
      rotation_due (started fl) (now_ fl) = true
  | _ => True
  end.

(** Ten cameras, and a schedule in which the workers of drivers 8 and 9 are
    given turns as well. *)
Definition ten_cameras : list string := eight_cameras ++ ["c8"; "c9"].

Definition sched_ten : list Event :=
  sched_boot ++ workers 8 up ++ sched_rotation1 ++ workers 9 up
  ++ sched_rotation2.


(** ** [timestamp] (lines 22-37)

    The date and time of day come from [std::localtime] and [std::put_time],
    which depend on the time zone of the process: their rendering is the
    parameter [local].  The fraction is computed and printed by the function
    itself. *)

Module Timestamp.
Local Open Scope Z_scope.

(** [t_msec.count()]: [t_sec] is the duration truncated to seconds and
    [t_msec] the rest truncated to microseconds. *)
Definition t_sec (ns : Z) : Z := Z.quot ns 1000000000.

Definition t_msec (ns : Z) : Z := Z.quot (ns - t_sec ns * 1000000000) 1000.

Definition digit (d : Z) : ascii := ascii_of_N (48 + Z.to_N d).

(** The decimal digits of a non-negative integer, in front of [acc]. *)
Fixpoint print_digits (fuel : nat) (n : Z) (acc : string) : string :=
  match fuel with
  | O => acc
  | S fuel' =>
      let acc' := String (digit (n mod 10)) acc in
      if n <? 10 then acc' else print_digits fuel' (n / 10) acc'
  end.

(** [operator<<] on a 64-bit integer: at most 19 digits. *)
Definition print_int (z : Z) : string :=
  if z <? 0 then String "-"%char (print_digits 20 (- z) "")
  else print_digits 20 z "".

Fixpoint fill (n : nat) (c : ascii) (s : string) : string :=
  match n with
  | O => s
  | S n' => String c (fill n' c s)
  end.

(** [std::setw(w) << std::setfill(c)], with the default adjustment to the
    right. *)
Definition setw (w : nat) (c : ascii) (s : string) : string :=
  fill (w - String.length s) c s.

Definition fraction (ns : Z) : string := setw 6 "0"%char (print_int (t_msec ns)).

Definition timestamp (local : string) (ns : Z) : string :=
  String.append local (String "."%char (fraction ns)).

(** Reading a string of decimal digits back. *)
Definition digit_value (c : ascii) : Z := Z.of_N (N_of_ascii c) - 48.

Fixpoint read (s : string) (acc : Z) : Z :=
  match s with
  | EmptyString => acc
  | String c s' => read s' (10 * acc + digit_value c)
  end.

Fixpoint all_digits (s : string) : bool :=
  match s with
  | EmptyString => true
  | String c s' =>
      (0 <=? digit_value c) && (digit_value c <? 10) && all_digits s'
  end.
End Timestamp.

(** ** The throttled log at and around its threshold *)

#[global] Instance spec_float_eq_dec : EqDecision spec_float.
Proof. solve_decision. Defined.


(** Thirty frames counted since the log at tick [t]. *)
Definition thirty_frames_at (t : Z) : LoopVars :=
  {| tp_last_logged := t; last_frame_number := 30; frame_counter := 30 |}.


(** ** Proof automation *)

(** Case analysis on the thread, the flag and the state of a driver. *)
Ltac crush_driver d :=
  destruct d as [sn [[| |v|]|] [] []]; simpl in *;
  repeat case_match; simplify_eq/=; try done.

(** Goals on how the context of a driver changes with [main]'s control
    point. *)
Ltac solve_ctx :=
  intros; unfold ctx_advances; simpl; repeat case_decide; subst;
  first [lia | by left | by right; eauto | congruence].

(** ** Lemmas on one driver *)

Section DriverLemmas.
Implicit Types (d : Driver) (e : DevEvent) (m : Method) (c : CallPc).

Lemma run_step_serial d e : serial_ (run_step d e).1 = serial_ d.
Proof.
  unfold run_step, caught. repeat case_match; simplify_eq/=; try done.
Qed.

Lemma run_step_ok ctx d e :
  driver_ok ctx d = true → driver_ok ctx (run_step d e).1 = true.
Proof.
  intros H. unfold run_step, caught.
  destruct ctx as [[[|b] []]|]; crush_driver d.
Qed.

Lemma run_step_no_thread d e : thread_ d = None → run_step d e = (d, []).
Proof. intros H. unfold run_step. by rewrite H. Qed.

Lemma call_step_ok m c d d' o logs :
  driver_ok (Some (m, c)) d = true →
  call_step m c d = (d', o, logs) →
  match o with
  | Continue c' => driver_ok (Some (m, c')) d' = true
  | Return => driver_ok None d' = true
  | Terminate => False
  end.
Proof.
  intros H Hs. destruct m as [|[]], c; crush_driver d.
Qed.

Lemma call_step_serial m c d d' o logs :
  call_step m c d = (d', o, logs) → serial_ d' = serial_ d.
Proof.
  intros Hs. destruct c; simpl in Hs; repeat case_match; by simplify_eq/=.
Qed.

Lemma invoke_ok m d : driver_ok None d = true → driver_ok (Some (m, CStop)) d = true.
Proof. by destruct m. Qed.

(** A driver whose owner is outside a call and that has no thread is at
    rest. *)
Lemma ok_at_rest d :
  driver_ok None d = true → thread_ d = None → at_rest d.
Proof. intros H Ht. unfold at_rest. crush_driver d; auto. Qed.

Lemma stop_return_no_thread c d d' logs :
  driver_ok (Some (Stop, c)) d = true →
  call_step Stop c d = (d', Return, logs) →
  thread_ d' = None.
Proof. intros H Hs. destruct c; crush_driver d. Qed.

Lemma stop_at_rest d : at_rest d → call_step Stop CStop d = (d, Return, []).
Proof. intros (Ht & _). unfold call_step, joinable. by rewrite Ht. Qed.

Lemma at_rest_run_step d e : at_rest d → run_step d e = (d, []).
Proof. intros (Ht & _). by apply run_step_no_thread. Qed.
End DriverLemmas.

(** ** One driver under every schedule *)

Section DriverRuns.
Implicit Types (s : DSys) (ev : DEvent) (evs : list DEvent).

Lemma drun_app s evs1 evs2 : drun s (evs1 ++ evs2) = drun (drun s evs1) evs2.
Proof. apply foldl_app. Qed.

Lemma drun_snoc s evs ev : drun s (evs ++ [ev]) = dstep (drun s evs) ev.
Proof. by rewrite drun_app. Qed.

Lemma dinit_ok serial : dsys_ok (dinit serial).
Proof. split; [by exists None|done]. Qed.

Lemma run_step_live_count d e sp fi :
  sp = fi + (if live d then 1 else 0) →
  sp = (if live d && negb (live (run_step d e).1) then S fi else fi)
       + (if live (run_step d e).1 then 1 else 0).
Proof.
  unfold run_step, caught.
  destruct d as [sn [[| |v|]|] [] []]; simpl;
    repeat case_match; simplify_eq/=; lia.
Qed.

Lemma call_step_live_count m c d sp fi :
  sp = fi + (if live d then 1 else 0) →
  (if joinable (call_step m c d).1.1 && negb (joinable d) then S sp else sp)
  = fi + (if live (call_step m c d).1.1 then 1 else 0).
Proof.
  destruct c, d as [sn [[| |v|]|] [] []]; simpl;
    repeat case_match; simplify_eq/=; lia.
Qed.

Lemma dstep_ok s ev : dsys_ok s → dsys_ok (dstep s ev).
Proof.
  intros [(ctx & Hc & Hok) Hn].
  destruct s as [d cl sp fi o]. cbn [caller drv spawned finished] in *.
  destruct ev as [m'| |e].
  - (* Invoke *)
    destruct cl as [|m c|]; simplify_eq/=.
    + split; [|done]. eexists; split; [done|]. by apply invoke_ok.
    + by split; [eexists|].
  - (* CallerStep *)
    destruct cl as [|m c|]; simpl in Hc; [|injection Hc as <-|done].
    { injection Hc as <-. by split; [exists None|]. }
    pose proof (call_step_live_count m c d sp fi Hn) as Hcnt.
    unfold dsys_ok, dstep; cbn [caller drv spawned finished].
    destruct (call_step m c d) as [[d' oc] logs] eqn:Hs.
    pose proof (call_step_ok m c d d' oc logs Hok Hs) as H'.
    cbn [caller drv spawned finished]. split; [|done].
    destruct oc; [by eexists|by exists None|done].
  - (* WorkerStep *)
    pose proof (run_step_ok ctx d e Hok) as H'.
    pose proof (run_step_live_count d e sp fi Hn) as Hcnt.
    unfold dsys_ok, dstep; cbn [caller drv spawned finished].
    destruct (run_step d e) as [d' logs] eqn:Hr.
    destruct cl as [|m c|]; simpl in Hc; [| |done]; injection Hc as <-;
      by split; [eexists|].
Qed.

Lemma drun_ok s evs : dsys_ok s → dsys_ok (drun s evs).
Proof.
  revert s. induction evs as [|ev evs IH]; intros s H; [done|].
  simpl. apply IH. by apply dstep_ok.
Qed.

Lemma reachable_ok serial evs : dsys_ok (drun (dinit serial) evs).
Proof. apply drun_ok, dinit_ok. Qed.
End DriverRuns.

(** ** Termination of [stop] under fair schedules *)

Section StopTerminates.
Implicit Types (s : DSys) (ev : DEvent) (evs : list DEvent).

Lemma stop_frame_turn s ev :
  stop_frame s → is_turn ev = true → stop_frame (dstep s ev).
Proof.
  intros [(ctx & Hc & Hok) Hf] Hev.
  destruct s as [d cl sp fi o]. cbn [caller drv] in *.
  destruct ev as [m'| |e]; [done| |].
  - destruct cl as [|[|b] c|]; simpl in Hc; try done; injection Hc as <-.
    { split; [by exists None|done]. }
    unfold stop_frame, dstep; cbn [caller drv].
    destruct (call_step Stop c d) as [[d' oc] logs] eqn:Hs.
    pose proof (call_step_ok _ _ _ _ _ _ Hok Hs) as H'.
    cbn [caller drv]. destruct oc; [by split; [eexists|]| |done].
    split; [by exists None|]. by eapply stop_return_no_thread.
  - pose proof (run_step_ok ctx d e Hok) as H'.
    unfold stop_frame, dstep; cbn [caller drv].
    destruct cl as [|[|b] c|]; simpl in Hc; try done; injection Hc as <-.
    + rewrite run_step_no_thread in H' |- * by done. by split; [exists None|].
    + destruct (run_step d e) as [d' logs]. by split; [eexists|].
Qed.

Lemma stop_rank_turn s ev :
  stop_frame s → is_turn ev = true →
  stop_rank (dstep s ev) ≤ stop_rank s ∧
  (turn_of ev = Some (turn_at (stop_rank s)) → 0 < stop_rank s →
   stop_rank (dstep s ev) < stop_rank s).
Proof.
  intros [(ctx & Hc & Hok) Hf] Hev.
  destruct s as [d cl sp fi o]. cbn [caller drv] in *.
  destruct cl as [|[|b] c|]; simpl in Hc; try done; injection Hc as <-.
  { destruct ev as [m'| |e]; [done|unfold stop_rank; simpl; lia|].
    unfold stop_rank, dstep; cbn [caller drv].
    destruct (run_step d e); simpl; lia. }
  destruct ev as [m'| |e]; [done| |].
  - unfold stop_rank, dstep; cbn [caller drv].
    destruct c, d as [sn [[| |v|]|] [] []]; simpl in *; try done;
      split; intros; simplify_eq/=; lia.
  - unfold stop_rank, dstep, run_step, caught; cbn [caller drv].
    destruct c, d as [sn [[| |v|]|] [] []]; simpl in *; try done;
      repeat case_match; simplify_eq/=; split; intros; simplify_eq/=; lia.
Qed.

Lemma stop_frame_rank0 s :
  stop_frame s → stop_rank s = 0 → caller s = Idle ∧ at_rest (drv s).
Proof.
  intros [(ctx & Hc & Hok) Hf] Hr.
  destruct s as [d cl sp fi o]. cbn [caller drv] in *.
  destruct cl as [|[|b] c|]; simpl in Hc; try done; injection Hc as <-.
  - split; [done|]. by apply ok_at_rest.
  - unfold stop_rank in Hr; cbn [caller drv] in Hr.
    destruct c, d as [sn [[| |v|]|] [] []]; simpl in *; done.
Qed.

Lemma stop_progress evs : ∀ r s,
  stop_frame s → stop_rank s ≤ r →
  forallb is_turn evs = true → has_turns (turns_from r) evs = true →
  stop_rank (drun s evs) = 0 ∧ stop_frame (drun s evs).
Proof.
  induction evs as [|ev evs IH]; intros r s Hf Hr Hall Hpat.
  - destruct r; [|done]. unfold drun; simpl. split; [lia|done].
  - simpl in Hall. apply andb_prop in Hall as [Hev Hall].
    change (drun s (ev :: evs)) with (drun (dstep s ev) evs).
    pose proof (stop_frame_turn s ev Hf Hev) as Hf'.
    pose proof (stop_rank_turn s ev Hf Hev) as [Hle Hlt].
    destruct r as [|r].
    { apply (IH 0); [done|lia|done|by destruct evs]. }
    simpl in Hpat. case_decide as Hk.
    + apply (IH r); [done| |done|done].
      destruct (decide (stop_rank s = S r)) as [He|]; [|lia].
      rewrite He in Hlt. specialize (Hlt Hk). lia.
    + apply (IH (S r)); [done|lia|done|done].
Qed.
End StopTerminates.


(** ** [stop] and [start] of one driver: the properties *)

Section DriverProperties.
Implicit Types (s : DSys) (ev : DEvent) (evs : list DEvent).

Lemma reachable_stop_frame serial evs c :
  caller (drun (dinit serial) evs) = InCall Stop c →
  stop_frame (drun (dinit serial) evs).
Proof.
  intros Hc. destruct (reachable_ok serial evs) as [Hok _].
  split; [done|]. by rewrite Hc.
Qed.

Lemma stop_rank_le s : stop_rank s ≤ 6.
Proof.
  unfold stop_rank. repeat case_match; lia.
Qed.

Lemma worker_step_no_thread s e :
  thread_ (drv s) = None → dstep s (WorkerStep e) = s.
Proof.
  intros Ht. destruct s as [d cl sp fi o]; simpl in *.
  unfold dstep; simpl. rewrite run_step_no_thread by done.
  unfold live. rewrite Ht; simpl. rewrite app_nil_r. by destruct cl.
Qed.

Lemma worker_steps_no_thread s es :
  thread_ (drv s) = None → drun s (WorkerStep <$> es) = s.
Proof.
  intros Ht. induction es as [|e es IH]; [done|].
  simpl. change (drun (dstep s (WorkerStep e)) (WorkerStep <$> es) = s).
  by rewrite worker_step_no_thread.
Qed.

(** C2 as stated fails: a driver whose worker ended in ERROR is still in
    ERROR when [stop] returns. *)
Lemma stop_after_error_not_off :
  let s := drun (dinit "cam") sched_stop_after_error in
  caller s = InCall Stop CClear ∧
  caller (dstep s CallerStep) = Idle ∧
  state_ (drv (dstep s CallerStep)) = STATE_ERROR ∧
  ¬ stopped_off (drv (dstep s CallerStep)).
Proof.
  vm_compute. repeat split; try done. by intros [? _].
Qed.

(** C8: [stop] on a driver that is OFF and outside any call changes nothing,
    whatever the worker events interleaved with it. *)
Theorem stop_on_off_is_noop serial evs0 ws1 ws2 ws3 :
  let s := drun (dinit serial) evs0 in
  caller s = Idle → state_ (drv s) = STATE_OFF →
  drun s ((WorkerStep <$> ws1) ++ Invoke Stop :: (WorkerStep <$> ws2)
          ++ CallerStep :: (WorkerStep <$> ws3)) = s.
Proof.
  intros s Hc Hst.
  assert (thread_ (drv s) = None) as Ht.
  { destruct (reachable_ok serial evs0) as [(ctx & Hctx & Hok) _].
    fold s in Hctx, Hok. rewrite Hc in Hctx. injection Hctx as <-.
    destruct (drv s) as [sn [[| |v|]|] [] []]; simpl in *; done. }
  rewrite drun_app, worker_steps_no_thread by done.
  change (drun (dstep s (Invoke Stop))
            ((WorkerStep <$> ws2) ++ CallerStep :: (WorkerStep <$> ws3)) = s).
  rewrite drun_app. set (s1 := dstep s (Invoke Stop)).
  assert (drv s1 = drv s) as Hd by (unfold s1, dstep; by rewrite Hc).
  rewrite worker_steps_no_thread by (by rewrite Hd).
  change (drun (dstep s1 CallerStep) (WorkerStep <$> ws3) = s).
  assert (dstep s1 CallerStep = s) as ->; [|by apply worker_steps_no_thread].
  unfold s1. destruct s as [d cl sp fi o]; simpl in *. subst cl.
  unfold dstep; simpl. unfold joinable. rewrite Ht; simpl.
  rewrite Ht; simpl. by rewrite app_nil_r.
Qed.

Lemma stop_on_off_is_noop_witness :
  let s := drun (dinit "cam") sched_start_stop in
  drun s ((WorkerStep <$> [dev_fail]) ++ Invoke Stop
          :: (WorkerStep <$> [dev_ok 2 None])
          ++ CallerStep :: (WorkerStep <$> [])) = s.
Proof.
  apply (stop_on_off_is_noop "cam" sched_start_stop
           [dev_fail] [dev_ok 2 None] []); reflexivity.
Defined.

(** [stop] from RUNNING on a healthy device ends in OFF; [stop] while the
    worker is still STARTING ends in OFF as well, through RUNNING. *)
Example stop_from_running :
  let s := drun (dinit "cam") sched_start_stop in
  caller s = Idle ∧ state_ (drv s) = STATE_OFF ∧ thread_ (drv s) = None ∧
  interrupt_requested_ (drv s) = false.
Proof. vm_compute. done. Qed.

Example stop_from_starting :
  let s0 := drun (dinit "cam")
              [Invoke (Start false); CallerStep; CallerStep; CallerStep;
               CallerStep; Invoke Stop; CallerStep] in
  let s := drun s0 [WorkerStep (dev_ok 0 None); WorkerStep (dev_ok 0 None);
                    WorkerStep (dev_ok 0 None); CallerStep; CallerStep] in
  state_ (drv s0) = STATE_STARTING ∧ caller s0 = InCall Stop CJoin ∧
  caller s = Idle ∧ state_ (drv s) = STATE_OFF ∧ thread_ (drv s) = None.
Proof. vm_compute. done. Qed.

(** A frame-wait timeout while the driver is being stopped leaves it in
    ERROR. *)
Example stop_from_running_timeout :
  let s := drun (dinit "cam")
             (sched_start_running ++
              [Invoke Stop; WorkerStep dev_fail; CallerStep; CallerStep;
               CallerStep]) in
  caller s = Idle ∧ state_ (drv s) = STATE_ERROR ∧ thread_ (drv s) = None.
Proof. vm_compute. done. Qed.

(** A worker that has failed stays as it is, and the polling loop of [start]
    is left at the owner's next turn. *)
Lemma failed_worker_turns evs : ∀ s,
  thread_ (drv s) = Some Exited → state_ (drv s) = STATE_ERROR →
  caller s = InCall (Start true) CWait ∨ caller s = Idle →
  forallb is_turn evs = true →
  state_ (drv (drun s evs)) = STATE_ERROR ∧
  (caller s = Idle ∨ existsb is_caller_step evs = true →
   caller (drun s evs) = Idle).
Proof.
  induction evs as [|ev evs IH]; intros s Ht Hst Hc Hall.
  - split; [done|]. by intros [?|?].
  - simpl in Hall. apply andb_prop in Hall as [Hev Hall].
    change (drun s (ev :: evs)) with (drun (dstep s ev) evs).
    destruct s as [d cl sp fi o]; cbn [caller drv] in *.
    destruct ev as [m| |e]; [done| |].
    + (* the owner's turn *)
      assert (∃ o', dstep {| drv := d; caller := cl; spawned := sp;
                             finished := fi; out := o |} CallerStep
              = {| drv := d; caller := Idle; spawned := sp; finished := fi;
                   out := o' |}) as [o' ->].
      { destruct Hc as [-> | ->]; [|by eexists].
        unfold dstep, call_step; simpl. rewrite Hst; simpl.
        destruct (joinable d && negb (joinable d)) eqn:Hj; [|by eexists].
        by destruct (joinable d). }
      destruct (IH {| drv := d; caller := Idle; spawned := sp; finished := fi;
                      out := o' |}) as [H1 H2]; auto.
    + (* the worker's turn: it has exited *)
      assert (dstep {| drv := d; caller := cl; spawned := sp;
                       finished := fi; out := o |} (WorkerStep e)
              = {| drv := d; caller := cl; spawned := sp; finished := fi;
                   out := o ++ [] |}) as ->.
      { unfold dstep, run_step, live; simpl. rewrite Ht; simpl.
        by destruct Hc as [-> | ->]. }
      destruct (IH {| drv := d; caller := cl; spawned := sp; finished := fi;
                      out := o ++ [] |}) as [H1 H2]; auto.
Qed.

(** C7: when the worker created by [start(true)] fails to open the stream,
    the driver is in ERROR, and [start] returns at the owner's next turn with
    the driver still in ERROR. *)
Theorem start_returns_on_open_failure serial evs0 e evs :
  let s := drun (dinit serial) evs0 in
  caller s = InCall (Start true) CWait →
  thread_ (drv s) = Some AtOpen →
  throws e = true →
  forallb is_turn evs = true →
  existsb is_caller_step evs = true →
  let s' := drun s (WorkerStep e :: evs) in
  caller s' = Idle ∧ state_ (drv s') = STATE_ERROR.
Proof.
  intros s Hc Ht He Hall Hex s'.
  unfold s'. change (drun s (WorkerStep e :: evs))
    with (drun (dstep s (WorkerStep e)) evs).
  destruct (failed_worker_turns evs (dstep s (WorkerStep e))) as [H1 H2].
  - destruct s as [d cl sp fi o]; cbn [caller drv] in *. subst cl.
    unfold dstep, run_step, caught; simpl. by rewrite Ht, He.
  - destruct s as [d cl sp fi o]; cbn [caller drv] in *. subst cl.
    unfold dstep, run_step, caught; simpl. by rewrite Ht, He.
  - left. destruct s as [d cl sp fi o]; cbn [caller drv] in *. subst cl.
    unfold dstep; simpl. by destruct (run_step d e).
  - done.
  - split; [|done]. apply H2. by right.
Qed.

Lemma start_returns_on_open_failure_witness :
  let s := drun (dinit "cam") (sched_start_spawned ++ [WorkerStep (dev_ok 0 None)]) in
  let s' := drun s (WorkerStep dev_fail
                    :: [WorkerStep (dev_ok 1 None); CallerStep; CallerStep]) in
  caller s' = Idle ∧ state_ (drv s') = STATE_ERROR.
Proof.
  apply (start_returns_on_open_failure "cam"
           (sched_start_spawned ++ [WorkerStep (dev_ok 0 None)]) dev_fail
           [WorkerStep (dev_ok 1 None); CallerStep; CallerStep]);
    reflexivity.
Defined.

(** C4: under every schedule of calls of [start] and [stop] and of worker
    steps, a driver has at most one live worker, the process is never
    terminated by an assignment to a joinable thread, and when [start]
    creates its worker every earlier worker has returned and been joined. *)
Theorem at_most_one_worker serial evs :
  let s := drun (dinit serial) evs in
  finished s ≤ spawned s ∧
  live_workers s = (if live (drv s) then 1 else 0) ∧
  live_workers s ≤ 1 ∧
  caller s ≠ Aborted ∧
  (∀ m, caller s = InCall m CSpawn →
        live_workers s = 0 ∧ thread_ (drv s) = None).
Proof.
  intros s. destruct (reachable_ok serial evs) as [(ctx & Hctx & Hok) Hn].
  fold s in Hctx, Hok, Hn. unfold live_workers.
  split; [lia|].
  split; [destruct (live (drv s)); lia|].
  split; [destruct (live (drv s)); lia|].
  split; [intros Hc; by rewrite Hc in Hctx|].
  intros m Hc. rewrite Hc in Hctx. injection Hctx as <-.
  unfold live in Hn.
  destruct m, (drv s) as [sn [[| |v|]|] [] []]; simpl in *; try done;
    split; try done; lia.
Qed.

(** [start] called twice in a row without waiting: the second call stops
    the worker of the first before creating its own. *)
Example start_start_joins_first :
  let s := drun (dinit "cam")
             [Invoke (Start false); CallerStep; CallerStep; CallerStep;
              CallerStep; Invoke (Start false); CallerStep] in
  caller s = InCall (Start false) CJoin ∧
  interrupt_requested_ (drv s) = true ∧
  thread_ (drv s) = Some AtReset ∧
  caller (dstep s CallerStep) = InCall (Start false) CJoin ∧
  live_workers s = 1.
Proof. vm_compute. done. Qed.
End DriverProperties.

(** ** The capture loop: the properties *)

Section CaptureLoop.
Local Open Scope Z_scope.
Implicit Types (v : LoopVars) (e : DevEvent) (n : Z).

Lemma wrap_id z : Int64.min <= z <= Int64.max → Int64.wrap z = z.
Proof.
  unfold Int64.min, Int64.max, Int64.wrap. intros H.
  rewrite Z.mod_small; lia.
Qed.

Lemma wrap_in_range z : Int64.min <= Int64.wrap z <= Int64.max.
Proof.
  unfold Int64.min, Int64.max, Int64.wrap.
  pose proof (Z.mod_pos_bound (z + 2 ^ 63) (2 ^ 64)). lia.
Qed.

(** Lines 177-192, case by case. *)
Lemma observe_cases v n :
  Int64.min <= frame_counter v < Int64.max →
  let new := Int64.wrap n in
  let v' := (observe v (Some n)).1 in
  let logs := (observe v (Some n)).2 in
  last_frame_number v' = new ∧
  tp_last_logged v' = tp_last_logged v ∧
  (last_frame_number v < new →
   frame_counter v' = frame_counter v + 1 ∧ logs = []) ∧
  (new < last_frame_number v →
   frame_counter v' = frame_counter v ∧
   logs = [MsgFrameReset (last_frame_number v) new]) ∧
  (new = last_frame_number v →
   frame_counter v' = frame_counter v ∧ logs = []).
Proof.
  intros Hfc new v' logs. unfold v', logs, observe. fold new.
  destruct (Z.ltb_spec (last_frame_number v) new) as [Hlt|Hge];
    [|destruct (Z.ltb_spec new (last_frame_number v)) as [Hlt'|Hge']]; simpl.
  - rewrite wrap_id by lia. repeat split; intros; try done; lia.
  - repeat split; intros; try done; lia.
  - repeat split; intros; try done; lia.
Qed.

(** C5: an observed depth frame number greater than [last_frame_number]
    increments [frame_counter] by one and logs nothing; a smaller one logs
    one frame-number-reset line and leaves the counter; an equal one does
    neither; in the three cases [last_frame_number] becomes the observed
    number. *)
Theorem frame_number_policy v n :
  Int64.min <= frame_counter v < Int64.max →
  let new := Int64.wrap n in
  let v' := (observe v (Some n)).1 in
  let logs := (observe v (Some n)).2 in
  last_frame_number v' = new ∧
  tp_last_logged v' = tp_last_logged v ∧
  (last_frame_number v < new →
   frame_counter v' = frame_counter v + 1 ∧ logs = []) ∧
  (new < last_frame_number v →
   frame_counter v' = frame_counter v ∧
   logs = [MsgFrameReset (last_frame_number v) new]) ∧
  (new = last_frame_number v →
   frame_counter v' = frame_counter v ∧ logs = []).
Proof. apply observe_cases. Qed.

Lemma frame_number_policy_witness :
  let v := sixty_frames in
  let new := Int64.wrap 7 in
  let v' := (observe v (Some 7)).1 in
  let logs := (observe v (Some 7)).2 in
  last_frame_number v' = new ∧
  tp_last_logged v' = tp_last_logged v ∧
  (last_frame_number v < new →
   frame_counter v' = frame_counter v + 1 ∧ logs = []) ∧
  (new < last_frame_number v →
   frame_counter v' = frame_counter v ∧
   logs = [MsgFrameReset (last_frame_number v) new]) ∧
  (new = last_frame_number v →
   frame_counter v' = frame_counter v ∧ logs = []).
Proof.
  apply (frame_number_policy sixty_frames 7).
  unfold Int64.min, Int64.max. simpl. lia.
Defined.

(** Over a whole sequence: the counter grows by the number of strict
    ascents, one reset line is logged per strict descent, and the last
    observed number is remembered. *)
Lemma feed_counts ns : ∀ v,
  Int64.min <= frame_counter v →
  frame_counter v + Z.of_nat (length ns) <= Int64.max →
  let obs := Int64.wrap <$> ns in
  frame_counter (feed v ns).1
    = frame_counter v + Z.of_nat (ascents (last_frame_number v) obs) ∧
  length (filter (λ m, is_frame_reset m = true) (feed v ns).2)
    = descents (last_frame_number v) obs ∧
  last_frame_number (feed v ns).1 = default (last_frame_number v) (last obs).
Proof.
  induction ns as [|n ns IH]; intros v Hlo Hhi obs.
  - simpl. repeat split; lia.
  - simpl in Hhi. unfold obs. rewrite fmap_cons.
    cbn [feed ascents descents].
    pose proof (observe_cases v n ltac:(lia)) as (Hl & _ & Hup & Hdn & Heq).
    destruct (observe v (Some n)) as [v1 l1] eqn:Ho. cbn [fst snd] in *.
    specialize (IH v1).
    destruct (feed v1 ns) as [v2 l2] eqn:Hf. cbn [fst snd] in *.
    rewrite Hl in IH.
    assert (last (Int64.wrap n :: (Int64.wrap <$> ns))
            = Some (default (Int64.wrap n) (last (Int64.wrap <$> ns)))) as ->.
    { rewrite last_cons. by destruct (last (Int64.wrap <$> ns)). }
    rewrite filter_app, length_app. simpl.
    destruct (Z.ltb_spec (last_frame_number v) (Int64.wrap n)) as [Hlt|Hge];
      [|destruct (Z.ltb_spec (Int64.wrap n) (last_frame_number v)) as [Hlt'|Hge']].
    + destruct (Hup Hlt) as [Hc ->].
      destruct (Z.ltb_spec (Int64.wrap n) (last_frame_number v)); [lia|].
      destruct IH as (I1 & I2 & I3); [lia|lia|].
      rewrite I1, I2, I3, Hc. simpl. repeat split; lia.
    + destruct (Hdn Hlt') as [Hc ->].
      destruct IH as (I1 & I2 & I3); [lia|lia|].
      rewrite I1, I2, I3, Hc. simpl. repeat split; lia.
    + destruct (Heq ltac:(lia)) as [Hc ->].
      destruct (Z.ltb_spec (Int64.wrap n) (last_frame_number v)); [lia|].
      destruct IH as (I1 & I2 & I3); [lia|lia|].
      rewrite I1, I2, I3, Hc. simpl. repeat split; lia.
Qed.

(** The two constants are the [double] 1.0 and the [float] 30.0. *)
Lemma chrono_constants :
  Chrono.one_second = Chrono.double_of_Z 1 ∧
  Chrono.thirty = Chrono.float_of_double (Chrono.double_of_Z 30).
Proof. by vm_compute. Qed.

(** One second on the clock is the [double] 1.0. *)
Lemma one_second_ticks : Chrono.seconds Chrono.period_den = Chrono.one_second.
Proof. vm_compute. reflexivity. Qed.

(** The test of line 165 is strict: at exactly 1.0 s nothing is logged and
    the counter is kept. *)
Lemma throttle_silent_at_one_second :
  elapsed_since_log thirty_frames 1000000000 = Chrono.one_second ∧
  throttle thirty_frames 1000000000 = (thirty_frames, []).
Proof. vm_compute. done. Qed.


(** One tick further the quotient rounds to the [float] below 30.0. *)
Lemma past_the_window :
  Chrono.fps 30 (Chrono.seconds 1000000032)
  = S754_finite false 15728639 (-19).
Proof. by vm_compute. Qed.





(** C6 as stated fails: with [frame_counter = 30] and exactly 1.0 s elapsed
    since the last log, no FPS value is logged and [frame_counter] is not
    reset. *)
Lemma fps_log_silent_at_one_second :
  let v := thirty_frames_at 5000000000 in
  frame_counter v = 30 ∧
  elapsed_since_log v 6000000000 = Chrono.one_second ∧
  throttle v 6000000000 = (v, []) ∧
  ¬ (∃ f c el, MsgFPS f c el ∈ (throttle v 6000000000).2) ∧
  frame_counter (throttle v 6000000000).1 ≠ 0.
Proof.
  vm_compute. repeat split; try done.
  intros (f & c & el & H). by apply elem_of_nil in H.
Qed.

(** Sixty frames over 2.0 s are logged as 30.0 as well. *)
Example fps_sixty_over_two :
  (throttle sixty_frames 2000000000).2
  = [MsgFPS Chrono.thirty 60 (Chrono.seconds 2000000000)].
Proof. vm_compute. reflexivity. Qed.

(** An iteration whose depth frame is absent or has number 0 keeps
    [last_frame_number] and [frame_counter] at 0 and logs no reset. *)
Lemma loop_body_zero v e :
  last_frame_number v = 0 → frame_counter v = 0 →
  depth e = None ∨ depth e = Some 0 →
  last_frame_number (loop_body v e).1 = 0 ∧
  frame_counter (loop_body v e).1 = 0 ∧
  filter (λ m, is_frame_reset m = true) (loop_body v e).2 = [].
Proof.
  intros Hl Hc Hd. unfold loop_body, throttle.
  destruct (Chrono.gt (elapsed_since_log v (clock e)) 1);
    destruct Hd as [-> | ->]; simpl; rewrite ?Hl, ?Hc; simpl; done.
Qed.

(** C9: the first depth frame of a capture run, when its number is 0, is
    neither counted nor reported as a reset. *)
Theorem first_frame_zero_is_duplicate t0 es e :
  Forall (λ e', depth e' = None) es →
  depth e = Some 0 →
  let r := loop_run (loop_entry t0) (es ++ [e]) in
  frame_counter r.1 = 0 ∧
  last_frame_number r.1 = 0 ∧
  filter (λ m, is_frame_reset m = true) r.2 = [].
Proof.
  intros Hes He.
  assert (∀ l v, last_frame_number v = 0 → frame_counter v = 0 →
                 Forall (λ e', depth e' = None ∨ depth e' = Some 0) l →
                 frame_counter (loop_run v l).1 = 0 ∧
                 last_frame_number (loop_run v l).1 = 0 ∧
                 filter (λ m, is_frame_reset m = true) (loop_run v l).2 = [])
    as Hgen.
  { induction l as [|e' l IH]; intros v Hl Hc Hall; [done|].
    inversion Hall as [|? ? Hd Hall']; subst.
    destruct (loop_body_zero v e' Hl Hc Hd) as (H1 & H2 & H3).
    cbn [loop_run]. destruct (loop_body v e') as [v1 l1]. cbn [fst snd] in *.
    destruct (IH v1 H1 H2 Hall') as (I1 & I2 & I3).
    destruct (loop_run v1 l) as [v2 l2]. cbn [fst snd] in *.
    by rewrite filter_app, H3, I3. }
  apply Hgen; [done|done|].
  apply Forall_app. split; [|by constructor; [right|constructor]].
  eapply Forall_impl; [exact Hes|]. by left.
Qed.

Lemma first_frame_zero_is_duplicate_witness :
  let r := loop_run (loop_entry 5)
             ([dev_ok 10 None; dev_ok 2000000000 None]
              ++ [dev_ok 4000000000 (Some 0)]) in
  frame_counter r.1 = 0 ∧
  last_frame_number r.1 = 0 ∧
  filter (λ m, is_frame_reset m = true) r.2 = [].
Proof.
  apply (first_frame_zero_is_duplicate 5
           [dev_ok 10 None; dev_ok 2000000000 None]
           (dev_ok 4000000000 (Some 0))).
  - repeat constructor.
  - reflexivity.
Defined.
End CaptureLoop.

(** ** The fleet under every schedule *)

Section FleetInvariant.
Implicit Types (fl : Fleet) (ds : list Driver) (d : Driver) (p : MainPc).

Lemma run_app fl evs1 evs2 : run fl (evs1 ++ evs2) = run (run fl evs1) evs2.
Proof. apply foldl_app. Qed.

Lemma rest_in_insert_other ds lo hi i d' :
  rest_in ds lo hi → ¬ (lo ≤ i < hi) → rest_in (<[i:=d']> ds) lo hi.
Proof.
  intros H Hi j d Hj Hl.
  apply list_lookup_insert_Some in Hl as [(-> & _ & _)|[_ Hl]]; [lia|].
  by eapply H.
Qed.

Lemma rest_in_insert_rest ds lo hi i d' :
  rest_in ds lo hi → at_rest d' → rest_in (<[i:=d']> ds) lo hi.
Proof.
  intros H Hd j d Hj Hl.
  apply list_lookup_insert_Some in Hl as [(-> & <- & _)|[_ Hl]]; [done|].
  by eapply H.
Qed.

Lemma rest_in_extend ds lo i d' :
  rest_in ds lo i → at_rest d' → rest_in (<[i:=d']> ds) lo (i + 1).
Proof.
  intros H Hd j d Hj Hl.
  apply list_lookup_insert_Some in Hl as [(-> & <- & _)|[Hne Hl]]; [done|].
  eapply H; [|done]. lia.
Qed.

Lemma rest_in_empty ds lo : rest_in ds lo lo.
Proof. intros j d Hj. lia. Qed.

Lemma driver_ok_advances c c' d :
  ctx_advances c c' → driver_ok c d = true → driver_ok c' d = true.
Proof.
  intros [-> | [-> [m ->]]] H; [done|]. by apply invoke_ok.
Qed.

Lemma drivers_ok_step p p' ds i d' :
  drivers_ok p ds →
  (i < length ds → driver_ok (ctx_of p' i) d' = true) →
  (∀ j, j ≠ i → ctx_advances (ctx_of p j) (ctx_of p' j)) →
  drivers_ok p' (<[i:=d']> ds).
Proof.
  intros H Hd Hctx j d Hl.
  apply list_lookup_insert_Some in Hl as [(-> & <- & Hlt)|[Hne Hl]]; [auto|].
  eapply driver_ok_advances; [apply Hctx; congruence|]. by apply H.
Qed.

Lemma drivers_ok_pc p p' ds :
  drivers_ok p ds →
  (∀ j, j < length ds → ctx_advances (ctx_of p j) (ctx_of p' j)) →
  drivers_ok p' ds.
Proof.
  intros H Hctx j d Hl. eapply driver_ok_advances; [|by apply H].
  apply Hctx. by eapply lookup_lt_Some.
Qed.

Lemma main_init_ok serials t0 : fleet_ok (main_init serials t0).
Proof.
  split; [done|]. split.
  - intros i d Hl. simpl in Hl.
    apply list_lookup_fmap_Some in Hl as (sn & -> & _).
    simpl. by case_decide.
  - simpl. split; [lia|]. intros i d _ Hl.
    apply list_lookup_fmap_Some in Hl as (sn & -> & _). by repeat split; auto.
Qed.

Lemma worker_on_cases fl i e :
  worker_on fl i e = fl ∨
  ∃ d, drivers fl !! i = Some d ∧
       pc (worker_on fl i e) = pc fl ∧
       toggle (worker_on fl i e) = toggle fl ∧
       drivers (worker_on fl i e) = <[i:=(run_step d e).1]> (drivers fl).
Proof.
  unfold worker_on.
  destruct (drivers fl !! i) as [d|]; [|left; by destruct (pc fl)].
  destruct (pc fl) eqn:Hpc; [| | | |by left]; right; exists d;
    destruct (run_step d e); by rewrite ?Hpc.
Qed.

Lemma worker_on_ok fl i e : fleet_ok fl → fleet_ok (worker_on fl i e).
Proof.
  intros (Ht & Hds & Hp).
  destruct (worker_on_cases fl i e) as [->|(d & Hl & Hpc & Htg & Hdr)]; [done|].
  unfold fleet_ok. rewrite Hpc, Htg, Hdr. split; [done|].
  assert (∀ lo hi, rest_in (drivers fl) lo hi →
                   rest_in (<[i:=(run_step d e).1]> (drivers fl)) lo hi)
    as Hrest.
  { intros lo hi H. destruct (decide (lo ≤ i < hi)) as [Hi|Hi].
    - rewrite (at_rest_run_step d e (H i d Hi Hl)). simpl.
      by rewrite list_insert_id.
    - by apply rest_in_insert_other. }
  split.
  - apply (drivers_ok_step _ _ _ _ _ Hds); [|by left].
    intros _. apply run_step_ok. by apply Hds.
  - destruct (pc fl) as [k c| |br k c|br k c|why]; simpl in *.
    + destruct Hp as [? ?]. auto.
    + destruct Hp as [?|?]; auto.
    + destruct Hp as (? & ? & [[? ?]|[? ?]]); auto 6.
    + destruct Hp as (? & ? & ?). auto.
    + destruct Hp as ([?|?] & k & ? & ?); (split; [auto|]);
        exists k; by rewrite length_insert.
Qed.

Lemma call_on_cases fl i m c again done :
  (drivers fl !! i = None ∧
   call_on fl i m c again done = set_pc (Crashed (OutOfRange i)) fl) ∨
  (∃ d d' o logs,
     drivers fl !! i = Some d ∧ call_step m c d = (d', o, logs) ∧
     call_on fl i m c again done =
       match o with
       | Continue c' => set_pc (again c') (with_driver fl i d d' logs)
       | Return => done (with_driver fl i d d' logs)
       | Terminate => set_pc (Crashed Terminated) (with_driver fl i d d' logs)
       end).
Proof.
  unfold call_on. destruct (drivers fl !! i) as [d|]; [right|by left].
  destruct (call_step m c d) as [[d' o] logs] eqn:Hs.
  exists d, d', o, logs. by destruct o.
Qed.

Lemma main_step_ok fl t : fleet_ok fl → fleet_ok (main_step fl t).
Proof.
  intros (Ht & Hds & Hp). unfold main_step.
  destruct (pc fl) as [k c| |br k c|br k c|why] eqn:Hpc; simpl in Hp.
  - (* InitStart *)
    destruct Hp as [Hk HB].
    destruct (call_on_cases fl k (Start true) c (InitStart k)
                (set_pc (if decide (k + 1 < 4) then InitStart (k + 1) CStop
                         else LoopTop)))
      as [[Hl ->]|(d & d' & o & logs & Hl & Hs & ->)].
    { apply lookup_ge_None in Hl. split; [done|]. split; simpl.
      - apply (drivers_ok_pc _ _ _ Hds). solve_ctx.
      - split; [by right|]. exists k. split; [done|lia]. }
    pose proof (Hds k d Hl) as Hok. simpl in Hok.
    rewrite decide_True in Hok by done.
    pose proof (call_step_ok _ _ _ _ _ _ Hok Hs) as Hok'.
    destruct o as [c'| |]; [| |done].
    + split; [done|]. split; simpl.
      * apply (drivers_ok_step _ _ _ _ _ Hds); [|solve_ctx].
        intros _. simpl. by rewrite decide_True.
      * split; [done|]. apply rest_in_insert_other; [done|lia].
    + split; [done|]. split; simpl.
      * apply (drivers_ok_step _ _ _ _ _ Hds).
        -- intros _. case_decide; simpl; [|done]. by rewrite decide_False by lia.
        -- case_decide; solve_ctx.
      * case_decide; simpl.
        -- split; [lia|]. apply rest_in_insert_other; [done|lia].
        -- right. apply rest_in_insert_other; [done|lia].
  - (* LoopTop *)
    destruct (rotation_due (started fl) t); [|by split].
    split; [done|]. rewrite Ht. split; simpl.
    + apply (drivers_ok_pc _ _ _ Hds). solve_ctx.
    + split; [done|]. split; [lia|].
      destruct Hp as [HA|HB]; [by right|left]. split; [done|].
      apply rest_in_empty.
  - (* RotStop *)
    destruct Hp as (-> & Hk & Hg).
    destruct (call_on_cases fl k Stop c (RotStop true k)
                (set_pc (if decide (k + 1 < stop_hi true)
                         then RotStop true (k + 1) CStop
                         else RotStart true (start_lo true) CStop)))
      as [[Hl ->]|(d & d' & o & logs & Hl & Hs & ->)].
    { apply lookup_ge_None in Hl. split; [done|]. split; simpl.
      - apply (drivers_ok_pc _ _ _ Hds). solve_ctx.
      - split; [destruct Hg as [[? ?]|[? ?]]; auto|].
        exists k. split; [done|lia]. }
    pose proof (Hds k d Hl) as Hok. simpl in Hok.
    rewrite decide_True in Hok by done.
    pose proof (call_step_ok _ _ _ _ _ _ Hok Hs) as Hok'.
    destruct o as [c'| |]; [| |done].
    + split; [done|]. split; simpl.
      * apply (drivers_ok_step _ _ _ _ _ Hds); [|solve_ctx].
        intros _. simpl. by rewrite decide_True.
      * split; [done|]. split; [done|].
        destruct Hg as [[HB HA]|[HA ->]].
        -- left. split; apply rest_in_insert_other; auto; lia.
        -- rewrite (stop_at_rest d (HA k d ltac:(lia) Hl)) in Hs. done.
    + assert (at_rest d') as Hrest.
      { apply ok_at_rest; [done|]. by eapply stop_return_no_thread. }
      split; [done|]. split; simpl.
      * apply (drivers_ok_step _ _ _ _ _ Hds).
        -- intros _. case_decide; simpl; [|by rewrite decide_False by lia].
           by rewrite decide_False by lia.
        -- case_decide; solve_ctx.
      * case_decide as Hlt; simpl in *.
        -- split; [done|]. split; [lia|].
           destruct Hg as [[HB HA]|[HA ->]].
           ++ left. split; [apply rest_in_insert_other; [done|lia]|].
              by apply rest_in_extend.
           ++ right. split; [|done]. by apply rest_in_insert_rest.
        -- split; [done|]. split; [lia|].
           destruct Hg as [[HB HA]|[HA ->]].
           ++ assert (k = 3) as -> by lia.
              by apply (rest_in_extend _ 0 3).
           ++ by apply rest_in_insert_rest.
  - (* RotStart *)
    destruct Hp as (-> & Hk & HA).
    destruct (call_on_cases fl k (Start true) c (RotStart true k)
                (λ fl', if decide (k + 1 < start_hi true)
                        then set_pc (RotStart true (k + 1) CStop) fl'
                        else end_rotation fl'))
      as [[Hl ->]|(d & d' & o & logs & Hl & Hs & ->)].
    { apply lookup_ge_None in Hl. split; [done|]. split; simpl.
      - apply (drivers_ok_pc _ _ _ Hds). solve_ctx.
      - split; [by left|]. exists k. split; [done|lia]. }
    pose proof (Hds k d Hl) as Hok. simpl in Hok.
    rewrite decide_True in Hok by done.
    pose proof (call_step_ok _ _ _ _ _ _ Hok Hs) as Hok'.
    destruct o as [c'| |]; [| |done].
    + split; [done|]. split; simpl.
      * apply (drivers_ok_step _ _ _ _ _ Hds); [|solve_ctx].
        intros _. simpl. by rewrite decide_True.
      * split; [done|]. split; [done|].
        apply rest_in_insert_other; [done|lia].
    + case_decide as Hlt; simpl in Hlt.
      * split; [done|]. split; simpl.
        -- apply (drivers_ok_step _ _ _ _ _ Hds); [|solve_ctx].
           intros _. simpl. by rewrite decide_False by lia.
        -- split; [done|]. split; [lia|].
           apply rest_in_insert_other; [done|lia].
      * split; [done|]. split; simpl.
        -- apply (drivers_ok_step _ _ _ _ _ Hds); [done|solve_ctx].
        -- left. apply rest_in_insert_other; [done|lia].
  - (* Crashed *)
    split; [done|]. by rewrite Hpc.
Qed.

Lemma step_ok fl ev : fleet_ok fl → fleet_ok (step fl ev).
Proof. destruct ev; [apply main_step_ok|apply worker_on_ok]. Qed.

Lemma run_ok evs : ∀ fl, fleet_ok fl → fleet_ok (run fl evs).
Proof.
  induction evs as [|ev evs IH]; intros fl H; [done|].
  apply (IH (step fl ev)). by apply step_ok.
Qed.

Lemma reachable_fleet_ok serials t0 evs :
  fleet_ok (run (main_init serials t0) evs).
Proof. apply run_ok, main_init_ok. Qed.
End FleetInvariant.

(** ** The rotation loop: the properties *)

Section Rotation.
Implicit Types (fl : Fleet) (evs : list Event).

(** C3, as the code has it: at every instant one of the two groups is at
    rest: each of its drivers has no worker thread, no pending interrupt, and
    is OFF or ERROR; so at most one group has drivers RUNNING or STARTING. *)
Theorem one_group_at_rest serials t0 evs :
  let fl := run (main_init serials t0) evs in
  (group_at_rest fl 0 4 ∨ group_at_rest fl 4 8) ∧
  ((∀ i d, i < 4 → drivers fl !! i = Some d → ¬ active d) ∨
   (∀ i d, 4 ≤ i < 8 → drivers fl !! i = Some d → ¬ active d)).
Proof.
  intros fl.
  assert (group_at_rest fl 0 4 ∨ group_at_rest fl 4 8) as H.
  { destruct (reachable_fleet_ok serials t0 evs) as (_ & _ & Hp).
    fold fl in Hp. unfold group_at_rest.
    destruct (pc fl); simpl in Hp.
    - destruct Hp as [_ ?]. by right.
    - done.
    - destruct Hp as (_ & _ & [[? _]|[? _]]); auto.
    - destruct Hp as (_ & _ & ?). by left.
    - by destruct Hp as [? _]. }
  split; [done|].
  destruct H as [H|H]; [left|right]; intros i d Hi Hl [Ha|Ha];
    destruct (H i d ltac:(lia) Hl) as (_ & _ & [Hs|Hs]); congruence.
Qed.

(** C3 as stated fails: after a rotation a failed driver of the stopped
    group is in ERROR, not OFF, while the other group is being started. *)
Lemma failed_driver_not_off :
  let fl := run (main_init eight_cameras 0) sched_failed_then_rotate in
  group_states fl 0 4 = [STATE_ERROR; STATE_OFF; STATE_OFF; STATE_OFF] ∧
  group_states fl 4 8 = [STATE_RUNNING; STATE_OFF; STATE_OFF; STATE_OFF] ∧
  ¬ one_group_off fl.
Proof.
  vm_compute. split; [done|]. split; [done|].
  intros [H|H]; inversion H; discriminate.
Qed.

(** [toggle] keeps its initial value: no statement of [main] assigns it. *)
Lemma toggle_constant serials t0 evs :
  toggle (run (main_init serials t0) evs) = true.
Proof. by destruct (reachable_fleet_ok serials t0 evs) as (? & _). Qed.

(** The [else] branch of line 245 is never entered. *)
Lemma else_branch_dead serials t0 evs i c :
  pc (run (main_init serials t0) evs) ≠ RotStop false i c ∧
  pc (run (main_init serials t0) evs) ≠ RotStart false i c.
Proof.
  destruct (reachable_fleet_ok serials t0 evs) as (_ & _ & Hp).
  split; intros Hpc; rewrite Hpc in Hp; simpl in Hp; by destruct Hp as [? _].
Qed.

Lemma worker_on_rest fl i e lo hi :
  group_at_rest fl lo hi → group_at_rest (worker_on fl i e) lo hi.
Proof.
  intros H. unfold group_at_rest.
  destruct (worker_on_cases fl i e) as [->|(d & Hl & _ & _ & ->)]; [done|].
  destruct (decide (lo ≤ i < hi)) as [Hi|Hi].
  - rewrite (at_rest_run_step d e (H i d Hi Hl)). simpl.
    by rewrite list_insert_id.
  - by apply rest_in_insert_other.
Qed.

Lemma rotated_step fl ev : fleet_ok fl → rotated fl → rotated (step fl ev).
Proof.
  intros (Ht & Hds & Hp) [HA Hpc]. destruct ev as [t|i e]; simpl.
  - unfold main_step, rotated, group_at_rest in *.
    destruct (pc fl) as [k c| |br k c|br k c|why] eqn:Hfl; simpl in Hp;
      [done| | | |by rewrite Hfl].
    + destruct (rotation_due (started fl) t); simpl; [|done].
      by rewrite Ht.
    + destruct Hp as (-> & Hk & _). destruct c; try done.
      destruct (call_on_cases fl k Stop CStop (RotStop true k)
                  (set_pc (if decide (k + 1 < stop_hi true)
                           then RotStop true (k + 1) CStop
                           else RotStart true (start_lo true) CStop)))
        as [[Hl ->]|(d & d' & o & logs & Hl & Hs & ->)]; [done|].
      rewrite (stop_at_rest d (HA k d ltac:(lia) Hl)) in Hs.
      injection Hs as <- <- <-. simpl.
      split; [by rewrite list_insert_id|]. by case_decide.
    + destruct Hp as (-> & Hk & _).
      destruct (call_on_cases fl k (Start true) c (RotStart true k)
                  (λ fl', if decide (k + 1 < start_hi true)
                          then set_pc (RotStart true (k + 1) CStop) fl'
                          else end_rotation fl'))
        as [[Hl ->]|(d & d' & o & logs & Hl & Hs & ->)]; [done|].
      destruct o; [|case_decide|]; simpl;
        (split; [apply rest_in_insert_other; [done|lia]|done]).
  - split; [by apply worker_on_rest|].
    destruct (worker_on_cases fl i e) as [->|(d & _ & -> & _ & _)]; done.
Qed.

(** X17: Once a rotation has taken place, drivers 0..3 are never started again,
    under any schedule. *)
Theorem first_group_never_restarted serials t0 evs evs' :
  let fl := run (main_init serials t0) evs in
  rotated fl → rotated (run fl evs').
Proof.
  intros fl. pose proof (reachable_fleet_ok serials t0 evs) as Hok.
  fold fl in Hok. clearbody fl. revert fl Hok.
  induction evs' as [|ev evs' IH]; intros fl Hok Hr; [done|].
  apply (IH (step fl ev)); [by apply step_ok|by apply rotated_step].
Qed.

Lemma first_group_never_restarted_witness :
  rotated (run (run (main_init eight_cameras 0) (sched_boot ++ sched_rotation1))
               sched_rotation2).
Proof.
  apply (first_group_never_restarted eight_cameras 0
           (sched_boot ++ sched_rotation1) sched_rotation2).
  split; [|by vm_compute].
  intros i d Hi Hl.
  do 4 (destruct i as [|i]; [vm_compute in Hl; injection Hl as <-;
                             by repeat split; auto|]).
  lia.
Defined.

(** C1 at eight healthy cameras: the first rotation stops drivers 0..3 and
    starts drivers 4..7; the second rotation does not swap back: drivers 0..3
    stay OFF and drivers 4..7 are restarted. *)
Theorem rotation_does_not_alternate :
  let fl0 := run (main_init eight_cameras 0) sched_boot in
  let fl1 := run fl0 sched_rotation1 in
  let fl2 := run fl1 sched_rotation2 in
  (pc fl0 = LoopTop ∧
   group_states fl0 0 4 = replicate 4 STATE_RUNNING ∧
   group_states fl0 4 8 = replicate 4 STATE_OFF) ∧
  (pc fl1 = LoopTop ∧ started fl1 = hour ∧
   group_states fl1 0 4 = replicate 4 STATE_OFF ∧
   group_states fl1 4 8 = replicate 4 STATE_RUNNING) ∧
  (pc fl2 = LoopTop ∧ started fl2 = (2 * hour)%Z ∧ toggle fl2 = true ∧
   group_states fl2 0 4 = replicate 4 STATE_OFF ∧
   group_states fl2 4 8 = replicate 4 STATE_RUNNING).
Proof. vm_compute. done. Qed.

(** The second rotation takes the branch of the first one again. *)
Example second_rotation_same_branch :
  let fl1 := run (main_init eight_cameras 0) (sched_boot ++ sched_rotation1) in
  pc (step fl1 (EvMain (2 * hour))) = RotStop true 0 CStop.
Proof. vm_compute. done. Qed.

(** No step changes the number of drivers. *)
Lemma call_on_length fl i m c again done :
  (∀ fl', length (drivers (done fl')) = length (drivers fl')) →
  length (drivers (call_on fl i m c again done)) = length (drivers fl).
Proof.
  intros Hdone.
  destruct (call_on_cases fl i m c again done)
    as [[_ ->]|(d & d' & o & logs & _ & _ & ->)]; [done|].
  destruct o; rewrite ?Hdone; simpl; by rewrite length_insert.
Qed.

Lemma step_length fl ev : length (drivers (step fl ev)) = length (drivers fl).
Proof.
  destruct ev as [t|i e]; simpl.
  - unfold main_step. destruct (pc fl) as [k c| |br k c|br k c|why].
    + by apply call_on_length.
    + by destruct (rotation_due (started fl) t).
    + by apply call_on_length.
    + apply call_on_length. intros fl'. by case_decide.
    + done.
  - destruct (worker_on_cases fl i e) as [->|(d & _ & _ & _ & ->)]; [done|].
    by rewrite length_insert.
Qed.

Lemma run_length evs : ∀ fl, length (drivers (run fl evs)) = length (drivers fl).
Proof.
  induction evs as [|ev evs IH]; intros fl; [done|].
  change (run fl (ev :: evs)) with (run (step fl ev) evs).
  by rewrite IH, step_length.
Qed.

(** A crashed process does not move. *)
Lemma run_crashed evs : ∀ fl why, pc fl = Crashed why → run fl evs = fl.
Proof.
  induction evs as [|ev evs IH]; intros fl why Hpc; [done|].
  change (run fl (ev :: evs)) with (run (step fl ev) evs).
  assert (step fl ev = fl) as ->; [|by eapply IH].
  destruct ev as [t|i e]; simpl.
  - unfold main_step. by rewrite Hpc.
  - unfold worker_on. by rewrite Hpc.
Qed.

Lemma rotation_due_after t0 : rotation_due t0 (t0 + hour) = true.
Proof.
  unfold rotation_due. replace (t0 + hour - t0)%Z with hour by lia.
  by vm_compute.
Qed.

(** The rotation starts when [main] reads the clock an hour after the
    last rotation. *)
Lemma tick_after_hour fl :
  pc fl = LoopTop → toggle fl = true →
  step fl (EvMain (started fl + hour)) =
    {| drivers := drivers fl; toggle := true; started := started fl;
       now_ := (started fl + hour)%Z; pc := RotStop true 0 CStop;
       console := console fl |}.
Proof.
  intros Hpc Ht. simpl. unfold main_step.
  by rewrite Hpc, rotation_due_after, Ht.
Qed.

(** With fewer than eight drivers, [main] reaches an access out of range. *)
Lemma probe_crashes serials t0 :
  length serials < 8 →
  pc (run (main_init serials t0) (sched_probe (t0 + hour)))
  = Crashed (OutOfRange (length serials)).
Proof.
  intros Hlen. unfold sched_probe. rewrite run_app.
  destruct serials as [|s0 [|s1 [|s2 [|s3 rest]]]];
    [erewrite run_crashed; by vm_compute..|].
  rewrite run_app.
  set (fl := run (main_init (s0 :: s1 :: s2 :: s3 :: rest) t0) sched_probe_boot).
  assert (pc fl = LoopTop ∧ toggle fl = true ∧ started fl = t0) as (Hpc & Ht & Hs).
  { destruct rest as [|s4 [|s5 [|s6 [|s7 rest]]]];
      [by vm_compute..|simpl in Hlen; lia]. }
  change (run fl [EvMain (t0 + hour)]) with (step fl (EvMain (t0 + hour))).
  rewrite <- Hs, (tick_after_hour fl Hpc Ht).
  destruct rest as [|s4 [|s5 [|s6 [|s7 rest]]]];
    [by vm_compute..|simpl in Hlen; lia].
Qed.

(** C10: [main] indexes [drivers] at 0..7 whatever the number of devices:
    with at least eight drivers no access is out of range, under any
    schedule; with fewer, the access at the first missing index is reached. *)
Theorem main_index_bounds serials t0 :
  (8 ≤ length serials →
   ∀ evs, ¬ crashed_out_of_range (run (main_init serials t0) evs)) ∧
  (length serials < 8 →
   ∃ evs, pc (run (main_init serials t0) evs)
          = Crashed (OutOfRange (length serials))).
Proof.
  split.
  - intros Hlen evs [i Hi].
    destruct (reachable_fleet_ok serials t0 evs) as (_ & _ & Hp).
    rewrite Hi in Hp. destruct Hp as (_ & k & Hk & Hb).
    rewrite run_length in Hb. simpl in Hb. rewrite length_fmap in Hb. lia.
  - intros Hlen. exists (sched_probe (t0 + hour)). by apply probe_crashes.
Qed.

Lemma main_index_bounds_witness :
  (∀ evs, ¬ crashed_out_of_range (run (main_init eight_cameras 0) evs)) ∧
  (∃ evs, pc (run (main_init ["c0"; "c1"; "c2"; "c3"; "c4"] 0) evs)
          = Crashed (OutOfRange 5)).
Proof.
  split.
  - apply (proj1 (main_index_bounds eight_cameras 0)). simpl. lia.
  - apply (proj2 (main_index_bounds ["c0"; "c1"; "c2"; "c3"; "c4"] 0)).
    simpl. lia.
Defined.
End Rotation.

(** ** The state machine of one driver: further properties *)

Section StateMachine.
Implicit Types (s : DSys) (ev : DEvent) (evs : list DEvent).

(** X2: Every step of the owner or of the worker moves the state along an edge
    of the state machine; RUNNING is left for OFF only under a pending
    interrupt, and STARTING is entered only by [start], at line 63. *)
Theorem state_edges serial evs ev :
  let s := drun (dinit serial) evs in
  let s' := dstep s ev in
  allowed (state_ (drv s)) (state_ (drv s')) = true ∧
  (state_ (drv s) = STATE_RUNNING → state_ (drv s') = STATE_OFF →
   interrupt_requested_ (drv s) = true) ∧
  (state_ (drv s) ≠ STATE_STARTING → state_ (drv s') = STATE_STARTING →
   ∃ b, caller s = InCall (Start b) CSetStarting).
Proof.
  intros s s'. unfold s'.
  destruct (reachable_ok serial evs) as [(ctx & Hc & Hok) _].
  fold s in Hc, Hok. clearbody s.
  destruct s as [d cl sp fi o]. cbn [caller drv] in *.
  destruct cl as [|m c|]; simpl in Hc; [| |done]; injection Hc as <-;
    destruct ev as [m'| |e]; unfold dstep, run_step, caught, call_step;
    cbn [caller drv];
    try (destruct m as [|b]); try (destruct c);
    destruct d as [sn [[| |v|]|] [] []]; simpl in *; try done;
    repeat case_match; simplify_eq/=; repeat split; try done; eauto.
Qed.


(** X4: The interrupt flag is set exactly while the owner is inside [stop]
    between lines 79 and 81: a worker never meets a stale request. *)
Theorem interrupt_only_inside_stop serial evs :
  let s := drun (dinit serial) evs in
  interrupt_requested_ (drv s) = true ↔
  ∃ m, caller s = InCall m CJoin ∨ caller s = InCall m CClear.
Proof.
  intros s. destruct (reachable_ok serial evs) as [(ctx & Hc & Hok) _].
  fold s in Hc, Hok. clearbody s.
  destruct s as [d cl sp fi o]. cbn [caller drv] in *.
  destruct cl as [|m c|]; simpl in Hc; [| |done]; injection Hc as <-.
  - split; [|by intros [? [?|?]]].
    destruct d as [sn [[| |v|]|] [] []]; simpl in *; done.
  - destruct m as [|b], c, d as [sn [[| |v|]|] [] []]; simpl in *; try done;
      split; try done; eauto; intros [? [?|?]]; done.
Qed.
End StateMachine.

(** ** Calls that return: a ranking argument *)

Section Progress.
Variables (frame : DSys → Prop) (rank : DSys → nat) (turn : nat → Turn).
Hypothesis frame_turn : ∀ s ev,
  frame s → is_turn ev = true → frame (dstep s ev).
Hypothesis rank_turn : ∀ s ev,
  frame s → is_turn ev = true →
  rank (dstep s ev) ≤ rank s ∧
  (turn_of ev = Some (turn (rank s)) → 0 < rank s →
   rank (dstep s ev) < rank s).

(** Turns never raise the rank and the right turn lowers it, so a schedule
    with the turns of rank [r] brings a frame of rank at most [r] to rank
    0. *)
Lemma ranked_progress evs : ∀ r s,
  frame s → rank s ≤ r →
  forallb is_turn evs = true → has_turns (turns_by turn r) evs = true →
  rank (drun s evs) = 0 ∧ frame (drun s evs).
Proof.
  induction evs as [|ev evs IH]; intros r s Hf Hr Hall Hpat.
  - destruct r; [|done]. unfold drun; simpl. split; [lia|done].
  - simpl in Hall. apply andb_prop in Hall as [Hev Hall].
    change (drun s (ev :: evs)) with (drun (dstep s ev) evs).
    pose proof (frame_turn s ev Hf Hev) as Hf'.
    pose proof (rank_turn s ev Hf Hev) as [Hle Hlt].
    destruct r as [|r].
    { apply (IH 0); [done|lia|done|by destruct evs]. }
    simpl in Hpat. case_decide as Hk.
    + apply (IH r); [done| |done|done].
      destruct (decide (rank s = S r)) as [He|]; [|lia].
      rewrite He in Hlt. specialize (Hlt Hk). lia.
    + apply (IH (S r)); [done|lia|done|done].
Qed.
End Progress.

Section StartReturns.
Implicit Types (s : DSys) (ev : DEvent) (evs : list DEvent).

Lemma start_frame_turn b s ev :
  start_frame b s → is_turn ev = true → start_frame b (dstep s ev).
Proof.
  intros [(ctx & Hc & Hok) Hf] Hev.
  destruct s as [d cl sp fi o]. cbn [caller drv] in *.
  destruct ev as [m'| |e]; [done| |].
  - destruct cl as [|[|b'] c|]; simpl in Hc; try done; injection Hc as <-.
    { split; [by exists None|done]. }
    subst b'. unfold start_frame, dstep; cbn [caller drv].
    destruct (call_step (Start b) c d) as [[d' oc] logs] eqn:Hs.
    pose proof (call_step_ok _ _ _ _ _ _ Hok Hs) as H'.
    cbn [caller drv]. destruct oc; [by split; [eexists|]| |done].
    split; [by exists None|].
    clear H'. destruct c, b, d as [sn [[| |v|]|] [] []]; simpl in *;
      repeat case_match; simplify_eq/=; done.
  - pose proof (run_step_ok ctx d e Hok) as H'.
    unfold start_frame, dstep; cbn [caller drv].
    destruct cl as [|[|b'] c|]; simpl in Hc; try done; injection Hc as <-.
    + destruct (run_step d e) as [d' logs] eqn:Hr. cbn [caller drv fst] in *.
      split; [by exists None|]. destruct Hf as [Hj Hst].
      unfold run_step, caught in Hr.
      destruct d as [sn [[| |v|]|] [] []]; simpl in *;
        repeat case_match; simplify_eq/=; split; try done;
        intros Hb; specialize (Hst Hb); done.
    + destruct (run_step d e) as [d' logs]. by split; [eexists|].
Qed.

Lemma start_rank_turn b s ev :
  start_frame b s → is_turn ev = true →
  start_rank (dstep s ev) ≤ start_rank s ∧
  (turn_of ev = Some (start_turn (start_rank s)) → 0 < start_rank s →
   start_rank (dstep s ev) < start_rank s).
Proof.
  intros [(ctx & Hc & Hok) Hf] Hev.
  destruct s as [d cl sp fi o]. cbn [caller drv] in *.
  destruct cl as [|[|b'] c|]; simpl in Hc; try done; injection Hc as <-.
  { destruct ev as [m'| |e]; [done|unfold start_rank; simpl; lia|].
    unfold start_rank, dstep; cbn [caller drv].
    destruct (run_step d e); simpl; lia. }
  subst b'. destruct ev as [m'| |e]; [done| |].
  - unfold start_rank, dstep; cbn [caller drv].
    destruct c, b, d as [sn [[| |v|]|] [] []]; simpl in *; try done;
      split; intros; simplify_eq/=; lia.
  - unfold start_rank, dstep, run_step, caught; cbn [caller drv].
    destruct c, b, d as [sn [[| |v|]|] [] []]; simpl in *; try done;
      repeat case_match; simplify_eq/=; split; intros; simplify_eq/=; lia.
Qed.

Lemma start_frame_rank0 b s :
  start_frame b s → start_rank s = 0 →
  caller s = Idle ∧ started_up b (drv s).
Proof.
  intros [(ctx & Hc & Hok) Hf] Hr.
  destruct s as [d cl sp fi o]. cbn [caller drv] in *.
  destruct cl as [|[|b'] c|]; simpl in Hc; try done; injection Hc as <-.
  - split; [done|]. destruct Hf as [Hj Hst]. unfold started_up.
    split; [done|].
    destruct d as [sn [[| |v|]|] [] []]; simpl in *; try done;
      split; try done; intros Hb; specialize (Hst Hb); auto; done.
  - unfold start_rank in Hr; cbn [caller drv] in Hr.
    destruct c, b', d as [sn [[| |v|]|] [] []]; simpl in *; done.
Qed.

Lemma start_rank_le s : start_rank s ≤ 11.
Proof. unfold start_rank. repeat case_match; lia. Qed.

Lemma reachable_start_frame serial evs b c :
  caller (drun (dinit serial) evs) = InCall (Start b) c →
  start_frame b (drun (dinit serial) evs).
Proof.
  intros Hc. destruct (reachable_ok serial evs) as [Hok _].
  split; [done|]. by rewrite Hc.
Qed.

(** X1: [start(b)] returns, in whatever state the driver was when it was called
    and whatever the device does: when it returns the thread is joinable
    and no interrupt is pending, and with [b = true] the driver is RUNNING or
    ERROR; and it does return under every schedule that gives the owner and
    the worker the turns of [turns_by start_turn 11]. *)
Theorem start_returns serial evs0 b c :
  let s := drun (dinit serial) evs0 in
  caller s = InCall (Start b) c →
  (caller (dstep s CallerStep) = Idle →
   started_up b (drv (dstep s CallerStep))) ∧
  (∀ evs, forallb is_turn evs = true →
          has_turns (turns_by start_turn 11) evs = true →
          caller (drun s evs) = Idle ∧ started_up b (drv (drun s evs))).
Proof.
  intros s Hc. pose proof (reachable_start_frame serial evs0 b c Hc) as Hf.
  fold s in Hf. split.
  - intros Hi.
    pose proof (start_frame_turn b s CallerStep Hf eq_refl) as Hf'.
    apply start_frame_rank0; [done|]. unfold start_rank. by rewrite Hi.
  - intros evs Hall Hpat.
    destruct (ranked_progress (start_frame b) start_rank start_turn
                (start_frame_turn b) (start_rank_turn b) evs 11 s Hf
                (start_rank_le s) Hall Hpat) as [H0 Hf'].
    by apply start_frame_rank0.
Qed.

Lemma start_returns_witness :
  let s := drun (dinit "cam") (sched_start_running ++ [Invoke (Start true)]) in
  (caller (dstep s CallerStep) = Idle →
   started_up true (drv (dstep s CallerStep))) ∧
  (∀ evs, forallb is_turn evs = true →
          has_turns (turns_by start_turn 11) evs = true →
          caller (drun s evs) = Idle ∧ started_up true (drv (drun s evs))).
Proof.
  apply (start_returns "cam" (sched_start_running ++ [Invoke (Start true)])
           true CStop).
  reflexivity.
Defined.

(** The schedule of a restart has the turns asked for. *)
Example sched_restart_is_fair :
  has_turns (turns_by start_turn 11)
    [CallerStep; WorkerStep (dev_ok 1 None); WorkerStep (dev_ok 1 None);
     WorkerStep (dev_ok 1 None); CallerStep; CallerStep; CallerStep;
     CallerStep; WorkerStep (dev_ok 2 None); WorkerStep (dev_ok 3 None);
     CallerStep] = true ∧
  state_ (drv (drun (dinit "cam") sched_restart)) = STATE_RUNNING ∧
  spawned (drun (dinit "cam") sched_restart) = 2 ∧
  finished (drun (dinit "cam") sched_restart) = 1.
Proof. vm_compute. done. Qed.
End StartReturns.

Section StopOutcome.
Implicit Types (s : DSys) (ev : DEvent) (evs : list DEvent).

Lemma error_kept evs : ∀ s,
  dsys_ok s →
  caller s = Idle ∨ (∃ c, caller s = InCall Stop c) →
  state_ (drv s) = STATE_ERROR →
  forallb no_start evs = true →
  state_ (drv (drun s evs)) = STATE_ERROR.
Proof.
  induction evs as [|ev evs IH]; intros s Hok Hc Hst Hall; [done|].
  simpl in Hall. apply andb_prop in Hall as [Hev Hall].
  change (drun s (ev :: evs)) with (drun (dstep s ev) evs).
  apply IH; [by apply dstep_ok| |  |done];
    destruct Hok as [(ctx & Hctx & Hok) _];
    destruct s as [d cl sp fi o]; cbn [caller drv] in *.
  - destruct Hc as [->|[c ->]]; destruct ev as [[|b]| |e]; try done;
      unfold dstep; cbn [caller drv]; eauto.
    + destruct (run_step d e); eauto.
    + destruct (call_step Stop c d) as [[d' oc] logs] eqn:Hs.
      simpl in Hctx. injection Hctx as <-.
      pose proof (call_step_ok _ _ _ _ _ _ Hok Hs) as H'.
      destruct oc; simpl; eauto; done.
    + destruct (run_step d e); eauto.
  - destruct Hc as [->|[c ->]]; simpl in Hctx; injection Hctx as <-;
      destruct ev as [[|b]| |e]; try done;
      unfold dstep, run_step, caught, call_step; cbn [caller drv];
      try (destruct c);
      destruct d as [sn [[| |v|]|] [] []]; simpl in *; try done;
      repeat case_match; simplify_eq/=; done.
Qed.

(** X5: [stop] never clears ERROR: a failed driver stays in ERROR through any
    number of calls of [stop], until [start] is called. *)
Theorem error_survives_stop serial evs0 evs :
  let s := drun (dinit serial) evs0 in
  caller s = Idle →
  state_ (drv s) = STATE_ERROR →
  forallb no_start evs = true →
  state_ (drv (drun s evs)) = STATE_ERROR.
Proof.
  intros s Hc Hst Hall.
  apply error_kept; [apply reachable_ok|by left|done|done].
Qed.

Lemma error_survives_stop_witness :
  let s := drun (dinit "cam") sched_start_open_fails in
  state_ (drv (drun s [Invoke Stop; CallerStep; CallerStep; CallerStep;
                       Invoke Stop; CallerStep])) = STATE_ERROR.
Proof.
  apply (error_survives_stop "cam" sched_start_open_fails
           [Invoke Stop; CallerStep; CallerStep; CallerStep;
            Invoke Stop; CallerStep]); reflexivity.
Defined.

Lemma healthy_keeps_no_error evs : ∀ s,
  (∀ m c, caller s = InCall m c → m = Stop) →
  state_ (drv s) ≠ STATE_ERROR →
  forallb is_turn evs = true → forallb healthy evs = true →
  state_ (drv (drun s evs)) ≠ STATE_ERROR.
Proof.
  induction evs as [|ev evs IH]; intros s Hc Hst Hall Hh; [done|].
  simpl in Hall, Hh. apply andb_prop in Hall as [Hev Hall].
  apply andb_prop in Hh as [Hh1 Hh].
  change (drun s (ev :: evs)) with (drun (dstep s ev) evs).
  apply IH; [| |done|done];
    destruct s as [d cl sp fi o]; cbn [caller drv] in *.
  - intros m c. destruct ev as [m'| |e]; [done| |].
    + destruct cl as [|m0 c0|]; try done. unfold dstep; cbn [caller drv].
      destruct (call_step m0 c0 d) as [[d' oc] logs].
      destruct oc; simpl; try done. intros [= <- <-]. by eapply Hc.
    + unfold dstep; cbn [caller drv].
      destruct cl as [|m0 c0|]; try done;
        destruct (run_step d e); simpl; try done. apply Hc.
  - destruct ev as [m'| |e]; [done| |].
    + destruct cl as [|m0 c0|]; try done.
      rewrite (Hc m0 c0 eq_refl). unfold dstep, call_step; cbn [caller drv].
      destruct c0, d as [sn [[| |v|]|] [] []]; simpl in *; done.
    + simpl in Hh1. apply negb_true_iff in Hh1.
      unfold dstep, run_step, caught; cbn [caller drv]. rewrite Hh1.
      destruct cl, d as [sn [[| |v|]|] [] []]; simpl in *; try done;
        repeat case_match; simplify_eq/=; done.
Qed.

(** X6: [stop] on a driver that is not in ERROR leaves it OFF when the device
    layer does not throw while the worker is being stopped. *)
Theorem stop_leaves_off_when_healthy serial evs0 c evs :
  let s := drun (dinit serial) evs0 in
  caller s = InCall Stop c →
  state_ (drv s) ≠ STATE_ERROR →
  forallb is_turn evs = true →
  forallb healthy evs = true →
  has_turns (turns_from 6) evs = true →
  caller (drun s evs) = Idle ∧ stopped_off (drv (drun s evs)).
Proof.
  intros s Hc Hst Hall Hh Hpat.
  pose proof (reachable_stop_frame serial evs0 c Hc) as Hf. fold s in Hf.
  destruct (stop_progress evs 6 s Hf (stop_rank_le s) Hall Hpat) as [H0 Hf'].
  destruct (stop_frame_rank0 _ Hf' H0) as [Hi (Ht & Hflag & Hs)].
  split; [done|]. split; [|done].
  destruct Hs as [Hs|Hs]; [done|]. exfalso.
  eapply (healthy_keeps_no_error evs s); [|done|done|done|done].
  intros m c'. rewrite Hc. by intros [= <- _].
Qed.

Lemma stop_leaves_off_when_healthy_witness :
  let s := drun (dinit "cam") (sched_start_running ++ [Invoke Stop]) in
  let evs := [CallerStep; WorkerStep (dev_ok 1 (Some 5%Z));
              WorkerStep (dev_ok 2 None); WorkerStep (dev_ok 3 None);
              CallerStep; CallerStep] in
  caller (drun s evs) = Idle ∧ stopped_off (drv (drun s evs)).
Proof.
  apply (stop_leaves_off_when_healthy "cam"
           (sched_start_running ++ [Invoke Stop]) CStop);
    by vm_compute.
Defined.
Lemma is_turn_no_start evs :
  forallb is_turn evs = true → forallb no_start evs = true.
Proof.
  induction evs as [|ev evs IH]; [done|]. simpl.
  intros [Hev Hall]%andb_prop. rewrite (IH Hall).
  by destruct ev as [[|b]| |e].
Qed.

(** Along a call of [stop], the state is ERROR at the end exactly when it
    was ERROR at the start or the worker failed on the way. *)
Lemma stop_error_iff evs : ∀ s,
  dsys_ok s → stop_frame s → forallb is_turn evs = true →
  (state_ (drv (drun s evs)) = STATE_ERROR ↔
   state_ (drv s) = STATE_ERROR ∨ fails s evs = true).
Proof.
  induction evs as [|ev evs IH]; intros s Hok Hf Hall.
  - simpl. split; [auto|]. by intros [?|?].
  - simpl in Hall. apply andb_prop in Hall as [Hev Hall].
    change (drun s (ev :: evs)) with (drun (dstep s ev) evs).
    rewrite (IH (dstep s ev) (dstep_ok s ev Hok)
               (stop_frame_turn s ev Hf Hev) Hall).
    cbn [fails]. rewrite orb_true_iff.
    assert (state_ (drv (dstep s ev)) = STATE_ERROR ↔
            state_ (drv s) = STATE_ERROR ∨
            match ev with
            | WorkerStep e => live (drv s) && throws e
            | _ => false
            end = true) as Hstep; [|rewrite Hstep; tauto].
    destruct Hok as [(ctx & Hctx & Hok) _]. destruct Hf as [_ Hf].
    destruct s as [d cl sp fi o]. cbn [caller drv] in *.
    destruct cl as [|[|b] c|]; simpl in Hctx; try done; injection Hctx as <-;
      destruct ev as [m'| |e]; try done;
      unfold dstep, run_step, caught, call_step; cbn [caller drv];
      try (destruct c);
      destruct d as [sn [[| |v|]|] [] []]; simpl in *; try done;
      repeat case_match; simplify_eq/=; split; try done; auto;
      intros [?|?]; done.
Qed.

(** C2, as the code has it: whatever the state of the driver when [stop] is
    called, when [stop] returns the driver has no worker thread and the
    interrupt flag is cleared; the state is ERROR when the driver was in
    ERROR or a device call of its worker throws while it is being stopped,
    and OFF otherwise; and [stop] does return under every schedule that
    gives the owner one turn, the worker three and the owner two more. *)
Theorem stop_returns_at_rest serial evs0 c :
  let s := drun (dinit serial) evs0 in
  caller s = InCall Stop c →
  (caller (dstep s CallerStep) = Idle → at_rest (drv (dstep s CallerStep))) ∧
  (∀ evs, forallb is_turn evs = true →
          has_turns (turns_from 6) evs = true →
          caller (drun s evs) = Idle ∧
          thread_ (drv (drun s evs)) = None ∧
          interrupt_requested_ (drv (drun s evs)) = false ∧
          state_ (drv (drun s evs)) = state_after_stop s evs).
Proof.
  intros s Hc. pose proof (reachable_stop_frame serial evs0 c Hc) as Hf.
  pose proof (reachable_ok serial evs0) as Hok. fold s in Hf, Hok. split.
  - intros Hi. destruct (stop_frame_turn s CallerStep Hf eq_refl) as [Hok' Ht].
    rewrite Hi in Hok', Ht. destruct Hok' as (ctx & Hctx & Hok').
    injection Hctx as <-. by apply ok_at_rest.
  - intros evs Hall Hpat.
    destruct (stop_progress evs 6 s Hf (stop_rank_le s) Hall Hpat) as [H0 Hf'].
    destruct (stop_frame_rank0 _ Hf' H0) as [Hi (Ht & Hflag & Hs)].
    repeat split; try done.
    pose proof (stop_error_iff evs s Hok Hf Hall) as Hiff.
    unfold state_after_stop.
    destruct (bool_decide (state_ (drv s) = STATE_ERROR) || fails s evs)
      eqn:Hb.
    + apply Hiff. apply orb_true_iff in Hb as [Hb|Hb]; [left|by right].
      by apply bool_decide_eq_true in Hb.
    + destruct Hs as [Hs|Hs]; [done|]. exfalso.
      apply Hiff in Hs. apply orb_false_iff in Hb as [Hb1 Hb2].
      apply bool_decide_eq_false in Hb1. destruct Hs; congruence.
Qed.

Lemma stop_returns_at_rest_witness :
  let s := drun (dinit "cam") (sched_start_running ++ [Invoke Stop]) in
  (caller (dstep s CallerStep) = Idle → at_rest (drv (dstep s CallerStep))) ∧
  (∀ evs, forallb is_turn evs = true →
          has_turns (turns_from 6) evs = true →
          caller (drun s evs) = Idle ∧
          thread_ (drv (drun s evs)) = None ∧
          interrupt_requested_ (drv (drun s evs)) = false ∧
          state_ (drv (drun s evs)) = state_after_stop s evs).
Proof.
  apply (stop_returns_at_rest "cam" (sched_start_running ++ [Invoke Stop]) CStop).
  reflexivity.
Defined.

(** The three outcomes of [stop] on a running driver: OFF when the device
    answers, ERROR when the frame wait times out before the worker sees the
    interrupt, ERROR when [pipeline.stop()] throws. *)
Example stop_outcomes :
  let s := drun (dinit "cam") (sched_start_running ++ [Invoke Stop]) in
  let quiet := [CallerStep; WorkerStep (dev_ok 1 None);
                WorkerStep (dev_ok 2 None); WorkerStep (dev_ok 3 None);
                CallerStep; CallerStep] in
  let timeout := [WorkerStep dev_fail; CallerStep; WorkerStep (dev_ok 2 None);
                  WorkerStep (dev_ok 3 None); WorkerStep (dev_ok 4 None);
                  CallerStep; CallerStep] in
  let stop_throws := [CallerStep; WorkerStep dev_fail;
                      WorkerStep (dev_ok 2 None); WorkerStep dev_fail;
                      CallerStep; CallerStep] in
  state_after_stop s quiet = STATE_OFF ∧
  state_ (drv (drun s quiet)) = STATE_OFF ∧
  state_after_stop s timeout = STATE_ERROR ∧
  state_ (drv (drun s timeout)) = STATE_ERROR ∧
  state_after_stop s stop_throws = STATE_ERROR ∧
  state_ (drv (drun s stop_throws)) = STATE_ERROR.
Proof. by vm_compute. Qed.
End StopOutcome.

(** ** The capture loop over a whole run *)

Section CaptureRun.
Local Open Scope Z_scope.
Implicit Types (v : LoopVars) (e : DevEvent) (es : list DevEvent).

Lemma fps_frames_app l1 l2 : fps_frames (l1 ++ l2) = fps_frames l1 + fps_frames l2.
Proof.
  induction l1 as [|m l1 IH]; [done|]. destruct m; simpl; lia.
Qed.

Lemma reset_lines_app l1 l2 :
  reset_lines (l1 ++ l2) = (reset_lines l1 + reset_lines l2)%nat.
Proof. unfold reset_lines. by rewrite filter_app, length_app. Qed.

(** The throttle reports the frames counted so far or keeps them, and
    touches neither [last_frame_number] nor the reset lines. *)
Lemma throttle_summary v now :
  let r := throttle v now in
  fps_frames r.2 + frame_counter r.1 = frame_counter v ∧
  (frame_counter r.1 = 0 ∨ frame_counter r.1 = frame_counter v) ∧
  reset_lines r.2 = 0%nat ∧
  last_frame_number r.1 = last_frame_number v.
Proof.
  unfold throttle. destruct (Chrono.gt (elapsed_since_log v now) 1); simpl.
  - repeat split; auto; lia.
  - repeat split; auto.
Qed.

(** Lines 177-192 never write an FPS line. *)
Lemma observe_no_fps v fd : fps_frames (observe v fd).2 = 0.
Proof.
  unfold observe. destruct fd as [n|]; [|done].
  by repeat case_match; simplify_eq/=.
Qed.

Lemma observed_cons e es :
  observed (e :: es) =
    match depth e with
    | Some n => Int64.wrap n :: observed es
    | None => observed es
    end.
Proof. unfold observed. simpl. by destruct (depth e). Qed.

Lemma observed_length es : (length (observed es) ≤ length es)%nat.
Proof.
  induction es as [|e es IH]; [done|]. rewrite observed_cons.
  destruct (depth e); simpl; lia.
Qed.

Lemma loop_run_cons v e es :
  loop_run v (e :: es) =
    ((loop_run (loop_body v e).1 es).1,
     (loop_body v e).2 ++ (loop_run (loop_body v e).1 es).2).
Proof.
  cbn [loop_run]. destruct (loop_body v e) as [v1 l1]. cbn [fst snd].
  by destruct (loop_run v1 es) as [v2 l2].
Qed.

Lemma loop_body_eq v e :
  loop_body v e =
    ((observe (throttle v (clock e)).1 (depth e)).1,
     (throttle v (clock e)).2 ++ (observe (throttle v (clock e)).1 (depth e)).2).
Proof.
  unfold loop_body. destruct (throttle v (clock e)) as [v1 l1].
  cbn [fst snd]. by destruct (observe v1 (depth e)) as [v2 l2].
Qed.

(** The counter and the FPS lines over a run, without overflow. *)
Lemma loop_run_counts es : ∀ v,
  0 <= frame_counter v →
  frame_counter v + Z.of_nat (length es) <= Int64.max →
  let r := loop_run v es in
  fps_frames r.2 + frame_counter r.1
    = frame_counter v
      + Z.of_nat (ascents (last_frame_number v) (observed es)) ∧
  0 <= frame_counter r.1 <= frame_counter v + Z.of_nat (length (observed es)).
Proof.
  induction es as [|e es IH]; intros v Hlo Hhi.
  - simpl. lia.
  - simpl in Hhi. rewrite loop_run_cons, loop_body_eq, observed_cons.
    cbn [fst snd].
    destruct (throttle_summary v (clock e)) as (Ht1 & Ht2 & _ & Ht4).
    set (vt := (throttle v (clock e)).1) in *.
    set (lt := (throttle v (clock e)).2) in *.
    rewrite !fps_frames_app, observe_no_fps.
    destruct (depth e) as [n|] eqn:Hd.
    + assert (unfold_min : Int64.min <= 0) by (by vm_compute).
      pose proof (observe_cases vt n ltac:(lia)) as (Hl & _ & Hup & Hdn & Heq).
      set (vo := (observe vt (Some n)).1) in *.
      destruct (IH vo) as [I1 I2].
      { destruct (Z.lt_trichotomy (last_frame_number vt) (Int64.wrap n))
          as [H|[H|H]];
          [destruct (Hup H) as [-> _]
          |destruct (Heq (eq_sym H)) as [-> _]
          |destruct (Hdn H) as [-> _]]; lia. }
      { destruct (Z.lt_trichotomy (last_frame_number vt) (Int64.wrap n))
          as [H|[H|H]];
          [destruct (Hup H) as [-> _]
          |destruct (Heq (eq_sym H)) as [-> _]
          |destruct (Hdn H) as [-> _]]; lia. }
      rewrite Hl in I1. cbn [ascents length]. rewrite <- Ht4.
      destruct (Z.ltb_spec (last_frame_number vt) (Int64.wrap n)) as [H|H].
      * destruct (Hup H) as [Hc _]. lia.
      * assert (frame_counter vo = frame_counter vt) as Hc.
        { destruct (Z.lt_trichotomy (Int64.wrap n) (last_frame_number vt))
            as [H'|[H'|H']]; [by destruct (Hdn H')|by destruct (Heq H')|lia]. }
        lia.
    + cbn [observe fst snd]. rewrite <- Ht4.
      destruct (IH vt) as [I1 I2]; lia.
Qed.

(** X7: Every depth frame counted as new is reported by exactly one FPS line or
    is still in the counter: the frames of the FPS lines plus the counter
    grow by the number of strict ascents of the observed numbers. *)
Theorem loop_frame_accounting v es :
  0 <= frame_counter v →
  frame_counter v + Z.of_nat (length es) <= Int64.max →
  fps_frames (loop_run v es).2 + frame_counter (loop_run v es).1
  = frame_counter v + Z.of_nat (ascents (last_frame_number v) (observed es)).
Proof. intros Hlo Hhi. by apply loop_run_counts. Qed.

Lemma loop_frame_accounting_witness :
  fps_frames (loop_run (loop_entry 0) five_frame_sets).2
  + frame_counter (loop_run (loop_entry 0) five_frame_sets).1
  = frame_counter (loop_entry 0)
    + Z.of_nat (ascents (last_frame_number (loop_entry 0))
                        (observed five_frame_sets)).
Proof.
  apply (loop_frame_accounting (loop_entry 0) five_frame_sets); by vm_compute.
Defined.

(** X8: From the entry of the loop the counter stays between 0 and the number
    of depth frames seen, so below INT64_MAX in every run of fewer than
    2^63 iterations. *)
Theorem loop_counter_bounds t0 es :
  Z.of_nat (length es) <= Int64.max →
  0 <= frame_counter (loop_run (loop_entry t0) es).1
    <= Z.of_nat (length (observed es)).
Proof.
  intros Hlen.
  by destruct (loop_run_counts es (loop_entry t0) ltac:(done) Hlen) as [_ ?].
Qed.

Lemma loop_counter_bounds_witness :
  0 <= frame_counter (loop_run (loop_entry 0) five_frame_sets).1
    <= Z.of_nat (length (observed five_frame_sets)).
Proof.
  apply (loop_counter_bounds 0 five_frame_sets). by vm_compute.
Defined.

(** X9: One reset line is logged per strict descent of the observed numbers,
    whatever the clock and the FPS lines in between. *)
Theorem loop_reset_lines es : ∀ v,
  reset_lines (loop_run v es).2
  = descents (last_frame_number v) (observed es).
Proof.
  induction es as [|e es IH]; intros v; [done|].
  rewrite loop_run_cons, loop_body_eq, observed_cons. cbn [fst snd].
  destruct (throttle_summary v (clock e)) as (_ & _ & Ht3 & Ht4).
  set (vt := (throttle v (clock e)).1) in *.
  rewrite !reset_lines_app, Ht3, IH, <- Ht4.
  destruct (depth e) as [n|]; [|done].
  unfold observe. cbn [descents].
  destruct (Z.ltb_spec (last_frame_number vt) (Int64.wrap n));
    destruct (Z.ltb_spec (Int64.wrap n) (last_frame_number vt));
    simpl; try done; lia.
Qed.

(** X10: After a run [last_frame_number] is the number of the most recent depth
    frame, and is unchanged when no frame set had one. *)
Theorem loop_last_frame_number es : ∀ v,
  last_frame_number (loop_run v es).1
  = default (last_frame_number v) (last (observed es)).
Proof.
  induction es as [|e es IH]; intros v; [done|].
  rewrite loop_run_cons, loop_body_eq, observed_cons. cbn [fst snd].
  destruct (throttle_summary v (clock e)) as (_ & _ & _ & Ht4).
  set (vt := (throttle v (clock e)).1) in *.
  rewrite IH, <- Ht4. destruct (depth e) as [n|]; [|done].
  rewrite last_cons.
  assert (last_frame_number (observe vt (Some n)).1 = Int64.wrap n) as ->.
  { unfold observe. by repeat case_match. }
  by destruct (last (observed es)).
Qed.

(** The run of five frame sets: two frames counted before the FPS line, none
    after it, one reset line. *)
Example five_frame_sets_run :
  let r := loop_run (loop_entry 0) five_frame_sets in
  fps_frames r.2 = 2 ∧ frame_counter r.1 = 0 ∧ reset_lines r.2 = 1%nat ∧
  last_frame_number r.1 = 2 ∧ observed five_frame_sets = [3; 4; 2; 2].
Proof. by vm_compute. Qed.
End CaptureRun.

(** ** The fleet: what [main] touches and what it leaves alone *)

Section FleetFrame.
Implicit Types (fl : Fleet) (evs : list Event) (d : Driver).

(** A step of the fleet changes at most one driver: by a step of its worker,
    or by a step of the call [main] is executing on it. *)
Lemma step_drivers fl ev :
  drivers (step fl ev) = drivers fl ∨
  ∃ i d d',
    drivers fl !! i = Some d ∧
    drivers (step fl ev) = <[i:=d']> (drivers fl) ∧
    ((∃ e, d' = (run_step d e).1) ∨
     (∃ m c, ctx_of (pc fl) i = Some (m, c) ∧ d' = (call_step m c d).1.1)).
Proof.
  destruct ev as [t|i e]; simpl.
  - unfold main_step.
    destruct (pc fl) as [k c| |br k c|br k c|why] eqn:Hpc;
      [| left; by destruct (rotation_due (started fl) t) | | | by left];
      match goal with
      | |- context [call_on fl k ?m c ?again ?fin] =>
          destruct (call_on_cases fl k m c again fin)
            as [[_ ->]|(d & d' & o & logs & Hl & Hs & ->)]; [by left|];
          right; exists k, d, d'; split; [done|];
          split; [destruct o; simpl; by repeat case_decide|];
          right; exists m, c; simpl; rewrite decide_True by done;
          by rewrite Hs
      end.
  - destruct (worker_on_cases fl i e) as [->|(d & Hl & _ & _ & ->)];
      [by left|].
    right. exists i, d, (run_step d e).1. eauto.
Qed.

(** X11: The serial numbers of the drivers are those enumerated at startup, in
    the same order, at every instant. *)
Theorem serials_fixed serials t0 evs :
  serial_ <$> drivers (run (main_init serials t0) evs) = serials.
Proof.
  assert (∀ fl, serial_ <$> drivers (run fl evs) = serial_ <$> drivers fl)
    as Hrun.
  { induction evs as [|ev evs IH]; intros fl; [done|].
    change (run fl (ev :: evs)) with (run (step fl ev) evs). rewrite IH.
    destruct (step_drivers fl ev) as [->|(i & d & d' & Hl & -> & Hd)]; [done|].
    rewrite list_fmap_insert.
    assert (serial_ d' = serial_ d) as ->.
    { destruct Hd as [[e ->]|(m & c & _ & ->)]; [apply run_step_serial|].
      destruct (call_step m c d) as [[d1 o] logs] eqn:Hs.
      by eapply call_step_serial. }
    apply list_insert_id. by rewrite list_lookup_fmap, Hl. }
  rewrite Hrun. simpl. rewrite <- list_fmap_compose.
  by rewrite list_fmap_id.
Qed.

(** X12: [main] never dies of [std::terminate]: no call of [start] assigns to a
    joinable thread, whatever the number of devices and the schedule. *)
Theorem main_never_terminates serials t0 evs :
  pc (run (main_init serials t0) evs) ≠ Crashed Terminated.
Proof.
  destruct (reachable_fleet_ok serials t0 evs) as (_ & _ & Hp).
  intros Hpc. rewrite Hpc in Hp. by destruct Hp as (_ & i & ? & _).
Qed.

Lemma call_index_below_8 fl i m c :
  fleet_ok fl → ctx_of (pc fl) i = Some (m, c) → i < 8.
Proof.
  intros (_ & _ & Hp) Hctx.
  destruct (pc fl) as [k c'| |br k c'|br k c'|why]; simpl in *; try done;
    case_decide; try done; subst; lia.
Qed.

(** X13: Only the first eight drivers are ever used: every further driver stays
    as constructed, with no thread and in OFF, under any schedule. *)
Theorem drivers_beyond_eight_untouched serials t0 evs i :
  8 ≤ i →
  drivers (run (main_init serials t0) evs) !! i = MiniDriver <$> serials !! i.
Proof.
  intros Hi.
  assert (∀ fl, fleet_ok fl →
            drivers fl !! i = MiniDriver <$> serials !! i →
            drivers (run fl evs) !! i = MiniDriver <$> serials !! i) as Hrun.
  { induction evs as [|ev evs IH]; intros fl Hok Hl; [done|].
    change (run fl (ev :: evs)) with (run (step fl ev) evs).
    apply IH; [by apply step_ok|].
    destruct (step_drivers fl ev) as [->|(k & d & d' & Hk & -> & Hd)]; [done|].
    destruct (decide (k = i)) as [->|Hne];
      [|by rewrite list_lookup_insert_ne].
    destruct Hd as [[e ->]|(m & c & Hctx & _)].
    - rewrite list_insert_id; [done|]. rewrite Hk. f_equal.
      rewrite Hk in Hl. destruct (serials !! i) as [sn|]; [|done].
      injection Hl as ->. done.
    - apply (call_index_below_8 _ _ _ _ Hok) in Hctx. lia. }
  apply Hrun; [apply main_init_ok|]. simpl. by rewrite list_lookup_fmap.
Qed.

Lemma drivers_beyond_eight_untouched_witness :
  drivers (run (main_init ten_cameras 0) sched_ten) !! 9
  = MiniDriver <$> ten_cameras !! 9.
Proof.
  apply (drivers_beyond_eight_untouched ten_cameras 0 sched_ten 9). lia.
Defined.
End FleetFrame.

(** ** The fleet between the calls of [main] *)

Section FleetCalm.
Implicit Types (fl : Fleet) (evs : list Event) (d : Driver).








End FleetCalm.

(** ** The rotation timer *)

Section Epoch.
Implicit Types (fl : Fleet) (evs : list Event).

Lemma epoch_ok_step fl ev : epoch_ok fl → epoch_ok (step fl ev).
Proof.
  intros H. destruct ev as [t|i e]; simpl.
  - unfold main_step, epoch_ok in *.
    destruct (pc fl) as [k c| |br k c|br k c|why] eqn:Hpc.
    + destruct (call_on_cases fl k (Start true) c (InitStart k)
                  (set_pc (if decide (k + 1 < 4) then InitStart (k + 1) CStop
                           else LoopTop)))
        as [[_ ->]|(d & d' & o & logs & _ & _ & ->)]; [done|].
      destruct o; simpl; try done. by case_decide.
    + by destruct (rotation_due (started fl) t) eqn:Hdue.
    + destruct (call_on_cases fl k Stop c (RotStop br k)
                  (set_pc (if decide (k + 1 < stop_hi br)
                           then RotStop br (k + 1) CStop
                           else RotStart br (start_lo br) CStop)))
        as [[_ ->]|(d & d' & o & logs & _ & _ & ->)]; [done|].
      destruct o; simpl; try done. by case_decide.
    + destruct (call_on_cases fl k (Start true) c (RotStart br k)
                  (λ fl', if decide (k + 1 < start_hi br)
                          then set_pc (RotStart br (k + 1) CStop) fl'
                          else end_rotation fl'))
        as [[_ ->]|(d & d' & o & logs & _ & _ & ->)]; [done|].
      destruct o; simpl; try done. by case_decide.
    + by rewrite Hpc.
  - unfold epoch_ok in *.
    destruct (worker_on_cases fl i e) as [->|(d & _ & Hpc & _ & _)]; [done|].
    rewrite Hpc. unfold worker_on.
    destruct (pc fl), (drivers fl !! i) as [d0|]; try done;
      by destruct (run_step d0 e).
Qed.

Lemma reachable_epoch_ok serials t0 evs :
  epoch_ok (run (main_init serials t0) evs).
Proof.
  assert (∀ fl, epoch_ok fl → epoch_ok (run fl evs)) as Hrun.
  { induction evs as [|ev evs IH]; intros fl H; [done|].
    apply (IH (step fl ev)). by apply epoch_ok_step. }
  by apply Hrun.
Qed.

(** X15: [started] changes only when the last [start] of a rotation returns, and
    it becomes the clock value read when that rotation was found due (line
    230), not the time at which the rotation ended: the time spent stopping
    and starting the drivers counts towards the next interval. *)
Theorem epoch_is_rotation_begin serials t0 evs ev :
  let fl := run (main_init serials t0) evs in
  started (step fl ev) = started fl ∨
  (∃ i c, pc fl = RotStart true i c ∧ pc (step fl ev) = LoopTop ∧
          started (step fl ev) = now_ fl ∧
          rotation_due (started fl) (now_ fl) = true).
Proof.
  intros fl.
  pose proof (reachable_epoch_ok serials t0 evs) as He.
  destruct (reachable_fleet_ok serials t0 evs) as (_ & _ & Hp).
  fold fl in He, Hp. clearbody fl.
  destruct ev as [t|i e]; simpl.
  - unfold main_step, epoch_ok in *.
    destruct (pc fl) as [k c| |br k c|br k c|why] eqn:Hpc.
    + left.
      destruct (call_on_cases fl k (Start true) c (InitStart k)
                  (set_pc (if decide (k + 1 < 4) then InitStart (k + 1) CStop
                           else LoopTop)))
        as [[_ ->]|(d & d' & o & logs & _ & _ & ->)]; [done|].
      by destruct o.
    + left. by destruct (rotation_due (started fl) t).
    + left.
      destruct (call_on_cases fl k Stop c (RotStop br k)
                  (set_pc (if decide (k + 1 < stop_hi br)
                           then RotStop br (k + 1) CStop
                           else RotStart br (start_lo br) CStop)))
        as [[_ ->]|(d & d' & o & logs & _ & _ & ->)]; [done|].
      by destruct o.
    + simpl in Hp. destruct Hp as (-> & _ & _).
      destruct (call_on_cases fl k (Start true) c (RotStart true k)
                  (λ fl', if decide (k + 1 < start_hi true)
                          then set_pc (RotStart true (k + 1) CStop) fl'
                          else end_rotation fl'))
        as [[_ ->]|(d & d' & o & logs & _ & _ & ->)]; [by left|].
      destruct o; [by left| |by left].
      case_decide; [by left|]. right. exists k, c. by repeat split.
    + by left.
  - left. unfold worker_on.
    destruct (pc fl), (drivers fl !! i) as [d0|]; try done;
      by destruct (run_step d0 e).
Qed.

(** The first rotation of eight healthy cameras: [main] reads the clock at
    3601 s, and that reading is the new [started]. *)
Example epoch_after_first_rotation :
  let fl := run (main_init eight_cameras 0) (sched_boot ++ sched_rotation1) in
  started fl = hour ∧ now_ fl = hour ∧ pc fl = LoopTop.
Proof. by vm_compute. Qed.
End Epoch.

(** ** [timestamp]: the fraction of a second *)

Section TimestampFraction.
Import Timestamp.
Local Open Scope Z_scope.

Lemma digit_value_digit d : 0 <= d < 10 → digit_value (digit d) = d.
Proof.
  intros Hd. unfold digit_value, digit.
  rewrite N_ascii_embedding by lia. lia.
Qed.

(** [print_digits] writes [k] digits, the fewest that hold [n]; read back
    after any prefix they give [n]. *)
Lemma print_digits_spec fuel : ∀ n acc,
  0 <= n < 10 ^ Z.of_nat fuel → (0 < fuel)%nat →
  ∃ k : nat,
    (0 < k ≤ fuel)%nat ∧
    String.length (print_digits fuel n acc) = (k + String.length acc)%nat ∧
    (k = 1%nat ∨ 10 ^ (Z.of_nat k - 1) <= n) ∧
    (∀ a, read (print_digits fuel n acc) a
          = read acc (a * 10 ^ Z.of_nat k + n)) ∧
    (all_digits acc = true → all_digits (print_digits fuel n acc) = true).
Proof.
  induction fuel as [|fuel IH]; intros n acc Hn Hf; [lia|].
  cbn [print_digits]. destruct (Z.ltb_spec n 10) as [Hlt|Hge].
  - exists 1%nat. repeat split; try lia; auto.
    + intros a. cbn [read]. rewrite digit_value_digit by
        (pose proof (Z.mod_pos_bound n 10); lia).
      rewrite Z.mod_small by lia. f_equal. lia.
    + intros Hacc. cbn [all_digits]. rewrite digit_value_digit by
        (pose proof (Z.mod_pos_bound n 10); lia).
      rewrite Hacc. pose proof (Z.mod_pos_bound n 10 ltac:(lia)).
      destruct (Z.leb_spec 0 (n mod 10)), (Z.ltb_spec (n mod 10) 10);
        try lia; done.
  - assert (0 < fuel)%nat as Hf'.
    { destruct fuel; [|lia]. simpl in Hn. lia. }
    assert (0 <= n / 10 < 10 ^ Z.of_nat fuel) as Hn'.
    { split; [apply Z.div_pos; lia|]. apply Z.div_lt_upper_bound; [lia|].
      replace (Z.of_nat (S fuel)) with (Z.of_nat fuel + 1) in Hn by lia.
      rewrite Z.pow_add_r in Hn by lia. lia. }
    destruct (IH (n / 10) (String (digit (n mod 10)) acc) Hn' Hf')
      as (k & Hk & Hlen & Hmin & Hread & Hdig).
    exists (S k). split; [lia|]. split; [|split; [|split]].
    + rewrite Hlen. simpl. lia.
    + right. replace (Z.of_nat (S k) - 1) with (Z.of_nat k - 1 + 1) by lia.
      rewrite Z.pow_add_r by lia.
      destruct Hmin as [->|Hmin].
      * simpl. lia.
      * pose proof (Z.mul_div_le n 10 ltac:(lia)). lia.
    + intros a. rewrite Hread. cbn [read].
      rewrite digit_value_digit by (pose proof (Z.mod_pos_bound n 10); lia).
      f_equal. replace (Z.of_nat (S k)) with (Z.of_nat k + 1) by lia.
      rewrite Z.pow_add_r by lia.
      pose proof (Z.div_mod n 10 ltac:(lia)). lia.
    + intros Hacc. apply Hdig. cbn [all_digits].
      rewrite digit_value_digit by (pose proof (Z.mod_pos_bound n 10); lia).
      rewrite Hacc. pose proof (Z.mod_pos_bound n 10 ltac:(lia)).
      destruct (Z.leb_spec 0 (n mod 10)), (Z.ltb_spec (n mod 10) 10);
        try lia; done.
Qed.

Lemma fill_zero_spec n s :
  String.length (fill n "0"%char s) = (n + String.length s)%nat ∧
  read (fill n "0"%char s) 0 = read s 0 ∧
  (all_digits s = true → all_digits (fill n "0"%char s) = true).
Proof.
  induction n as [|n (IH1 & IH2 & IH3)]; [done|].
  cbn [fill String.length read all_digits]. split; [by rewrite IH1|].
  split; [exact IH2|]. intros H. by rewrite (IH3 H).
Qed.

(** After the epoch, [t_msec] is the microsecond within the second. *)
Lemma t_msec_nonneg ns :
  0 <= ns → t_msec ns = (ns mod 1000000000) / 1000 ∧ 0 <= t_msec ns < 1000000.
Proof.
  intros Hns. unfold t_msec, t_sec.
  rewrite (Z.quot_div_nonneg ns 1000000000) by lia.
  assert (ns - ns / 1000000000 * 1000000000 = ns mod 1000000000) as ->.
  { pose proof (Z.div_mod ns 1000000000 ltac:(lia)). lia. }
  pose proof (Z.mod_pos_bound ns 1000000000 ltac:(lia)).
  rewrite Z.quot_div_nonneg by lia. split; [done|].
  split; [apply Z.div_pos; lia|]. apply Z.div_lt_upper_bound; lia.
Qed.

Lemma append_length (s1 s2 : string) :
  String.length (String.append s1 s2)
  = (String.length s1 + String.length s2)%nat.
Proof. induction s1 as [|c s1 IH]; simpl; [done|]. by rewrite IH. Qed.

(** X16: For a clock value after the epoch, [timestamp] is the local date and
    time followed by a dot and exactly six decimal digits, which read back
    as the microsecond within the second: the stamp has a fixed width,
    whatever the fraction. *)
Theorem timestamp_fraction local ns :
  0 <= ns →
  String.length (timestamp local ns) = (String.length local + 7)%nat ∧
  String.length (fraction ns) = 6%nat ∧
  all_digits (fraction ns) = true ∧
  read (fraction ns) 0 = (ns mod 1000000000) / 1000.
Proof.
  intros Hns.
  destruct (t_msec_nonneg ns Hns) as [Heq Hrange].
  assert (String.length (fraction ns) = 6%nat ∧
          all_digits (fraction ns) = true ∧
          read (fraction ns) 0 = (ns mod 1000000000) / 1000) as H.
  { unfold fraction, setw, print_int.
    destruct (Z.ltb_spec (t_msec ns) 0) as [?|_]; [lia|].
    destruct (print_digits_spec 20 (t_msec ns) "" ltac:(simpl; lia) ltac:(lia))
      as (k & Hk & Hlen & Hmin & Hread & Hdig).
    assert (k ≤ 6)%nat as Hk6.
    { destruct Hmin as [->|Hmin]; [lia|].
      destruct (decide (k ≤ 6)%nat) as [|Hgt]; [done|]. exfalso.
      assert (10 ^ 6 <= 10 ^ (Z.of_nat k - 1)) by (apply Z.pow_le_mono_r; lia).
      simpl in *. lia. }
    destruct (fill_zero_spec
                (6 - String.length (print_digits 20 (t_msec ns) ""))
                (print_digits 20 (t_msec ns) "")) as (F1 & F2 & F3).
    split; [rewrite F1, Hlen; simpl; lia|].
    split; [by apply F3, Hdig|].
    rewrite F2, Hread. simpl. lia. }
  split; [|done]. destruct H as [Hlen _].
  unfold timestamp. rewrite append_length. simpl. rewrite Hlen. lia.
Qed.

Lemma timestamp_fraction_witness :
  String.length (timestamp "2021-03-04 05:06:07" 1614834367000042999)
  = (String.length "2021-03-04 05:06:07" + 7)%nat ∧
  String.length (fraction 1614834367000042999) = 6%nat ∧
  all_digits (fraction 1614834367000042999) = true ∧
  read (fraction 1614834367000042999) 0
  = (1614834367000042999 mod 1000000000) / 1000.
Proof.
  apply (timestamp_fraction "2021-03-04 05:06:07" 1614834367000042999). lia.
Defined.

(** Forty-two microseconds are printed as 000042. *)
Example timestamp_example :
  timestamp "2021-03-04 05:06:07" 1614834367000042999
  = "2021-03-04 05:06:07.000042"%string.
Proof. by vm_compute. Qed.
End TimestampFraction.
